(** * SalesStarLoadBalancer: health checking, scoring and selection

    A shallow embedding of [load-balancer-refactored.py] (classes
    [ServerConfig], [ServerHealth], [HealthChecker], [LoadBalancer]) and of the
    selection path of [load-balancer-app.py], followed by the properties the
    specification states about them.

    Conventions of the embedding.
    - Python floats (latencies in milliseconds, scores, [time.time()] readings)
      are rationals [Q]; the decimal literals [0.2] and [0.1] are the exact
      rationals.  The boundary case of the scoring rule is also evaluated on
      IEEE binary64 values ([_calculate_score_f64]).
    - The instance dictionary [self.cache] is a [gmap] from URL to a pair of a
      record and the time it was stored.
    - Exceptions are values of [Exn]; a call that may raise returns a [Result].
    - The network, the clock and [datetime.now()] are inputs: one [ProbeIO]
      per call of [check_server] holds what that call reads from them.  The
      requests a call sends are returned as a list of URLs. *)

From Stdlib Require Import QArith Qround Qminmax Lqa Floats.
From stdpp Require Import gmap strings list.

Local Open Scope Q_scope.

(** ** Python built-ins used by the source *)

(** [a < b] on floats, as a boolean. *)
Definition Qltb (a b : Q) : bool :=
  match Qcompare a b with Lt => true | _ => false end.

(** [max(a, b)]: the first argument is kept unless the second is strictly
    greater. *)
Definition py_max2 (a b : Q) : Q := if Qltb a b then b else a.

(** Nearest integer, ties to the even one. *)
Definition round_half_even (x : Q) : Z :=
  let f := Qfloor x in
  match Qcompare (x - inject_Z f) (1 # 2) with
  | Lt => f
  | Gt => (f + 1)%Z
  | Eq => if Z.even f then f else (f + 1)%Z
  end.

(** [round(x, 2)]. *)
Definition py_round2 (x : Q) : Q := Qred (inject_Z (round_half_even (x * 100)) / 100).

(** [max(items, key=key)] on a non-empty sequence [first :: rest]: the
    running maximum is replaced only by an item whose key is strictly
    greater, so the first maximal item wins. *)
Fixpoint py_max_from {A : Type} (key : A → Q) (best : A) (rest : list A) : A :=
  match rest with
  | [] => best
  | x :: rest' =>
      if Qltb (key best) (key x) then py_max_from key x rest'
      else py_max_from key best rest'
  end.

(** The shape shared by the two selectors of the source: filter, return
    [None] on an empty result, else the maximum by key. *)
Definition max_of_filtered {A : Type} (P : A → Prop) `{!∀ x, Decision (P x)}
    (key : A → Q) (items : list A) : option A :=
  match filter P items with
  | [] => None
  | s :: rest => Some (py_max_from key s rest)
  end.

(** ** Data model *)

Inductive HealthStatus : Type := HEALTHY | UNHEALTHY | ERROR.

#[global] Instance HealthStatus_eq_dec : EqDecision HealthStatus.
Proof. solve_decision. Defined.

Module ServerConfig.
Record t : Type := mk { name : string; url : string; weight : Z }.
(** [ServerConfig(name, url)] with the default [weight = 1]. *)
Definition make (name url : string) : t := mk name url 1.
End ServerConfig.

Module ServerHealth.
Record t : Type := mk {
  name : string;
  url : string;
  health : HealthStatus;
  response_time : option Q;
  score : Q;
  status_code : option Z;
  error : option string;
  last_checked : string
}.
End ServerHealth.

(** Exceptions the modelled code can meet. *)
Inductive Exn : Type :=
| RequestException (msg : string)
| ValueError (msg : string)
| KeyError (msg : string)
| TypeError (msg : string)
| AttributeError (msg : string).

Inductive Result (A : Type) : Type :=
| Ok (a : A)
| Raise (e : Exn).
Arguments Ok {A} a.
Arguments Raise {A} e.

Definition is_ok {A : Type} (r : Result A) : bool :=
  match r with Ok _ => true | Raise _ => false end.

(** What [response.json()] gives, as far as the code looks at it: it raises
    [ValueError] on a body that is not JSON; a JSON object has a ["status"]
    member (a string) or none and a ["score"] member (a number) or none; any
    other JSON value (array, string, number, null) has no [get] method. *)
Inductive Body : Type :=
| Undecodable (msg : string)
| JsonObject (status_member : option string) (score_member : option Q)
| JsonOther.

Definition status_member_of (body : Body) : option string :=
  match body with JsonObject status _ => status | _ => None end.

Definition score_member_of (body : Body) : option Q :=
  match body with JsonObject _ score => score | _ => None end.

(** What [self.session.get(...)] gives: it raises a [RequestException]
    (connection refused, timeout, DNS or TLS failure, retries exhausted) or
    returns a response. *)
Inductive Outcome : Type :=
| TransportFailure (msg : string)
| Response (code : Z) (body : Body).

(** What one call of [check_server] reads from the outside world. *)
Record ProbeIO : Type := mkIO {
  now : Q;            (* time.time() in _is_cache_valid *)
  outcome : Outcome;  (* result of session.get *)
  elapsed_ms : Q;     (* (time.time() - start_time) * 1000 *)
  stored_at : Q;      (* time.time() at the cache update *)
  stamp : string      (* datetime.now().isoformat() *)
}.

(** ** Scoring *)

(** [HealthChecker._calculate_score]. *)
Definition _calculate_score (response_time : Q) : Q :=
  if Qltb response_time 100 then 100
  else if Qltb response_time 500 then 100 - (response_time - 100) * 0.2
  else py_max2 1 (100 - response_time * 0.1).

(** The same function on binary64 floats. *)
Definition _calculate_score_f64 (response_time : float) : float :=
  if PrimFloat.ltb response_time 100 then 100%float
  else if PrimFloat.ltb response_time 500
       then (100 - (response_time - 100) * 0x1.999999999999ap-3)%float
  else let x := (100 - response_time * 0x1.999999999999ap-4)%float in
       if PrimFloat.ltb 1 x then x else 1%float.

(** ** Exceptions: sequencing and [try ... except] *)

#[global] Instance Result_bind : MBind Result := λ A B k r,
  match r with Ok a => k a | Raise e => Raise e end.

(** [try: body except <classes>: handler]; an exception outside the listed
    classes passes through. *)
Definition try_except {A : Type} (body : Result A) (catches : Exn → bool)
    (handler : Exn → Result A) : Result A :=
  match body with
  | Ok a => Ok a
  | Raise e => if catches e then handler e else Raise e
  end.

(** [except (ValueError, KeyError)]. *)
Definition is_ValueError_or_KeyError (e : Exn) : bool :=
  match e with ValueError _ | KeyError _ => true | _ => false end.

(** [except requests.RequestException]. *)
Definition is_RequestException (e : Exn) : bool :=
  match e with RequestException _ => true | _ => false end.

(** [str(e)]. *)
Definition str (e : Exn) : string :=
  match e with
  | RequestException m | ValueError m | KeyError m | TypeError m
  | AttributeError m => m
  end.

(** [self.session.get(url, ...)]. *)
Definition session_get (io : ProbeIO) : Result (Z * Body) :=
  match outcome io with
  | TransportFailure msg => Raise (RequestException msg)
  | Response code body => Ok (code, body)
  end.

(** [response.json()]. *)
Definition response_json (body : Body) : Result Body :=
  match body with
  | Undecodable msg => Raise (ValueError msg)
  | _ => Ok body
  end.

(** [health_data.get("score", default)]. *)
Definition get_score (health_data : Body) (default : Q) : Result Q :=
  match health_data with
  | JsonObject _ (Some s) => Ok s
  | JsonObject _ None => Ok default
  | _ => Raise (AttributeError "object has no attribute 'get'")
  end.

(** [health_data[key]] for the two keys the first version of the service reads. *)
Definition get_status_item (health_data : Body) : Result string :=
  match health_data with
  | JsonObject (Some s) _ => Ok s
  | JsonObject None _ => Raise (KeyError "status")
  | _ => Raise (TypeError "object is not subscriptable")
  end.

Definition get_score_item (health_data : Body) : Result Q :=
  match health_data with
  | JsonObject _ (Some s) => Ok s
  | JsonObject _ None => Raise (KeyError "score")
  | _ => Raise (TypeError "object is not subscriptable")
  end.

(** ** [HealthChecker] *)

Module HealthChecker.

(** The [requests.Session] built by [_create_session]: its retry strategy
    and the size of its connection pool. *)
Record Session : Type := mkSession {
  retry_total : Z;
  backoff_factor : Q;
  status_forcelist : list Z;
  pool_connections : Z;
  pool_maxsize : Z
}.

Record t : Type := mk {
  timeout : Z;
  cache_ttl : Z;
  cache : gmap string (ServerHealth.t * Q);
  session : Session;
  max_workers : nat   (* of [self.executor] *)
}.

Definition _create_session (max_retries : Z) : Session :=
  {| retry_total := max_retries;
     backoff_factor := 0.3;
     status_forcelist := [429; 500; 502; 503; 504]%Z;
     pool_connections := 20;
     pool_maxsize := 20 |}.

(** [HealthChecker.__init__].  No statement of it inspects its arguments
    or raises, so the result is always [Ok]. *)
Definition __init__ (timeout max_retries cache_ttl : Z) : Result t :=
  Ok {| timeout := timeout;
        cache_ttl := cache_ttl;
        cache := ∅;
        session := _create_session max_retries;
        max_workers := 10 |}.

(** [self.cache[key] = value]. *)
Definition set_cache (self : t) (key : string) (value : ServerHealth.t * Q) : t :=
  {| timeout := timeout self;
     cache_ttl := cache_ttl self;
     cache := <[key := value]> (cache self);
     session := session self;
     max_workers := max_workers self |}.

(** [HealthChecker._is_cache_valid], with the reading of [time.time()]. *)
Definition _is_cache_valid (self : t) (server_url : string) (time_time : Q) : bool :=
  match cache self !! server_url with
  | None => false
  | Some (_, timestamp) => Qltb (time_time - timestamp) (inject_Z (cache_ttl self))
  end.

(** The record built on a 200 response: the inner [try] of [check_server]. *)
Definition on_200 (server : ServerConfig.t) (code : Z) (body : Body)
    (response_time : Q) (stamp : string) : Result ServerHealth.t :=
  try_except
    (health_data ← response_json body;
     score ← get_score health_data (_calculate_score response_time);
     Ok {| ServerHealth.name := ServerConfig.name server;
           ServerHealth.url := ServerConfig.url server;
           ServerHealth.health := HEALTHY;
           ServerHealth.response_time := Some (py_round2 response_time);
           ServerHealth.score := score;
           ServerHealth.status_code := Some code;
           ServerHealth.error := None;
           ServerHealth.last_checked := stamp |})
    is_ValueError_or_KeyError
    (λ e,
     Ok {| ServerHealth.name := ServerConfig.name server;
           ServerHealth.url := ServerConfig.url server;
           ServerHealth.health := UNHEALTHY;
           ServerHealth.response_time := Some (py_round2 response_time);
           ServerHealth.score := 0;
           ServerHealth.status_code := Some code;
           ServerHealth.error := Some "Invalid health response";
           ServerHealth.last_checked := stamp |}).

(** The outer [try] of [check_server]: the request and the record made of
    its outcome, or the exception that escapes both handlers. *)
Definition probe (server : ServerConfig.t) (io : ProbeIO) : Result ServerHealth.t :=
  try_except
    (response ← session_get io;
     let '(code, body) := response in
     let response_time := elapsed_ms io in
     if decide (code = 200%Z) then on_200 server code body response_time (stamp io)
     else
       Ok {| ServerHealth.name := ServerConfig.name server;
             ServerHealth.url := ServerConfig.url server;
             ServerHealth.health := UNHEALTHY;
             ServerHealth.response_time := Some (py_round2 response_time);
             ServerHealth.score := 0;
             ServerHealth.status_code := Some code;
             ServerHealth.error := None;
             ServerHealth.last_checked := stamp io |})
    is_RequestException
    (λ e,
     Ok {| ServerHealth.name := ServerConfig.name server;
           ServerHealth.url := ServerConfig.url server;
           ServerHealth.health := ERROR;
           ServerHealth.response_time := None;
           ServerHealth.score := 0;
           ServerHealth.status_code := None;
           ServerHealth.error := Some (str e);
           ServerHealth.last_checked := stamp io |}).

(** The URL requested by a probe of [server]. *)
Definition health_url (server : ServerConfig.t) : string :=
  ServerConfig.url server +:+ "/health".

(** [HealthChecker.check_server]: the value returned or the exception
    raised, the checker afterwards, and the requests sent. *)
Definition check_server (self : t) (server : ServerConfig.t) (io : ProbeIO)
    : Result ServerHealth.t * t * list string :=
  if _is_cache_valid self (ServerConfig.url server) (now io) then
    match cache self !! ServerConfig.url server with
    | Some entry => (Ok entry.1, self, [])
    | None => (Raise (KeyError (ServerConfig.url server)), self, [])
    end
  else
    match probe server io with
    | Ok health =>
        (Ok health,
         set_cache self (ServerConfig.url server) (health, stored_at io),
         [health_url server])
    | Raise e => (Raise e, self, [health_url server])
    end.

(** *** [check_all_servers_parallel]: the executor

    [self.executor.submit(self.check_server, server)] queues one task per
    server; at most [max_workers] of them run at a time.  A running call of
    [check_server] blocks only in [session.get], so a task takes two steps:
    [Start] looks at the cache and either returns the cached record or
    sends the request; [Finish] receives the outcome, builds the record and
    stores it.  A schedule is the order in which the tasks take their steps;
    the order of the [Finish] events is the completion order of the probes. *)

Inductive Task : Type :=
| Queued
| Waiting
| Done (r : Result ServerHealth.t).

Definition is_waiting (k : Task) : bool :=
  match k with Waiting => true | _ => false end.

Definition running (tasks : list Task) : nat :=
  length (filter (λ k, is_waiting k) tasks).

Record Pool : Type := mkPool {
  checker : t;
  tasks : list Task;       (* one per future, in submission order *)
  sent : list string       (* requests sent so far *)
}.

Inductive Event : Type := Start (i : nat) | Finish (i : nat).

Definition start (servers : list ServerConfig.t) (ios : list ProbeIO) (i : nat)
    (p : Pool) : option Pool :=
  match tasks p !! i, servers !! i, ios !! i with
  | Some Queued, Some server, Some io =>
      if decide (running (tasks p) < max_workers (checker p))%nat then
        if _is_cache_valid (checker p) (ServerConfig.url server) (now io) then
          match cache (checker p) !! ServerConfig.url server with
          | Some entry =>
              Some (mkPool (checker p) (<[i := Done (Ok entry.1)]> (tasks p)) (sent p))
          | None =>
              Some (mkPool (checker p)
                      (<[i := Done (Raise (KeyError (ServerConfig.url server)))]> (tasks p))
                      (sent p))
          end
        else
          Some (mkPool (checker p) (<[i := Waiting]> (tasks p))
                  (sent p ++ [health_url server]))
      else None
  | _, _, _ => None
  end.

Definition finish (servers : list ServerConfig.t) (ios : list ProbeIO) (i : nat)
    (p : Pool) : option Pool :=
  match tasks p !! i, servers !! i, ios !! i with
  | Some Waiting, Some server, Some io =>
      match probe server io with
      | Ok health =>
          Some (mkPool (set_cache (checker p) (ServerConfig.url server)
                          (health, stored_at io))
                  (<[i := Done (Ok health)]> (tasks p)) (sent p))
      | Raise e =>
          Some (mkPool (checker p) (<[i := Done (Raise e)]> (tasks p)) (sent p))
      end
  | _, _, _ => None
  end.

Definition step (servers : list ServerConfig.t) (ios : list ProbeIO) (ev : Event)
    (p : Pool) : option Pool :=
  match ev with
  | Start i => start servers ios i p
  | Finish i => finish servers ios i p
  end.

(** The pool after a schedule, when every event of it is enabled. *)
Fixpoint run (servers : list ServerConfig.t) (ios : list ProbeIO)
    (schedule : list Event) (p : Pool) : option Pool :=
  match schedule with
  | [] => Some p
  | ev :: schedule' =>
      match step servers ios ev p with
      | Some p' => run servers ios schedule' p'
      | None => None
      end
  end.

(** [futures = [self.executor.submit(self.check_server, server) for server in servers]]. *)
Definition submit_all (self : t) (servers : list ServerConfig.t) : Pool :=
  mkPool self (map (λ _, Queued) servers) [].

(** [[future.result() for future in futures]]: the futures are awaited in
    list order; [result()] re-raises the exception of its task.  [None]
    while the future awaited is not done. *)
Fixpoint gather (tasks : list Task) : option (Result (list ServerHealth.t)) :=
  match tasks with
  | [] => Some (Ok [])
  | Done (Ok r) :: tasks' =>
      match gather tasks' with
      | Some (Ok rs) => Some (Ok (r :: rs))
      | other => other
      end
  | Done (Raise e) :: _ => Some (Raise e)
  | _ :: _ => None
  end.

(** [HealthChecker.check_all_servers_parallel] under a schedule: [None]
    when the schedule cannot be run or stops before the call returns. *)
Definition check_all_servers_parallel (self : t) (servers : list ServerConfig.t)
    (ios : list ProbeIO) (schedule : list Event)
    : option (Result (list ServerHealth.t) * t * list string) :=
  match run servers ios schedule (submit_all self servers) with
  | Some p =>
      match gather (tasks p) with
      | Some results => Some (results, checker p, sent p)
      | None => None
      end
  | None => None
  end.

(** The schedule that receives the answers of the requests in flight, in
    the order of [todo]. *)
Fixpoint finish_waiting (servers : list ServerConfig.t) (ios : list ProbeIO)
    (todo : list nat) (p : Pool) : list Event :=
  match todo with
  | [] => []
  | i :: todo' =>
      match finish servers ios i p with
      | Some p' => Finish i :: finish_waiting servers ios todo' p'
      | None => finish_waiting servers ios todo' p
      end
  end.

(** The schedule that runs the queued tasks of [todo] one after the other:
    each is started and, when it sent a request, finished before the next
    one starts. *)
Fixpoint sequential (servers : list ServerConfig.t) (ios : list ProbeIO)
    (todo : list nat) (p : Pool) : list Event :=
  match todo with
  | [] => []
  | i :: todo' =>
      match start servers ios i p with
      | Some p1 =>
          match tasks p1 !! i, finish servers ios i p1 with
          | Some Waiting, Some p2 =>
              Start i :: Finish i :: sequential servers ios todo' p2
          | _, _ => Start i :: sequential servers ios todo' p1
          end
      | None => sequential servers ios todo' p
      end
  end.

(** A schedule that brings a pool to its end: the requests in flight are
    answered, then the queued tasks run one after the other. *)
Definition completion (servers : list ServerConfig.t) (ios : list ProbeIO)
    (p : Pool) : list Event :=
  let todo := seq 0 (length (tasks p)) in
  let answered := finish_waiting servers ios todo p in
  match run servers ios answered p with
  | Some q => answered ++ sequential servers ios todo q
  | None => answered
  end.

End HealthChecker.

(** ** [LoadBalancer] *)

Module LoadBalancer.

Record t : Type := mk {
  servers : list ServerConfig.t;
  health_checker : HealthChecker.t
}.

(** [LoadBalancer.__init__] stores its two arguments. *)
Definition __init__ (servers : list ServerConfig.t) (health_checker : HealthChecker.t)
    : Result t :=
  Ok {| servers := servers; health_checker := health_checker |}.

(** [LoadBalancer.get_all_server_health]. *)
Definition get_all_server_health (self : t) (ios : list ProbeIO)
    (schedule : list HealthChecker.Event)
    : option (Result (list ServerHealth.t) * t * list string) :=
  match HealthChecker.check_all_servers_parallel (health_checker self) (servers self)
          ios schedule with
  | Some (r, hc, sent) => Some (r, mk (servers self) hc, sent)
  | None => None
  end.

(** The selection made by [get_best_server] on the snapshot it took:
    [None] when no record is healthy, else [max(healthy_servers, key=...)]. *)
Definition best (all_servers : list ServerHealth.t) : option ServerHealth.t :=
  let healthy_servers :=
    filter (λ s, ServerHealth.health s = HEALTHY) all_servers in
  match healthy_servers with
  | [] => None
  | s :: rest => Some (py_max_from ServerHealth.score s rest)
  end.

(** [LoadBalancer.get_best_server]. *)
Definition get_best_server (self : t) (ios : list ProbeIO)
    (schedule : list HealthChecker.Event)
    : option (Result (option ServerHealth.t) * t * list string) :=
  match get_all_server_health self ios schedule with
  | Some (Ok all_servers, self', sent) => Some (Ok (best all_servers), self', sent)
  | Some (Raise e, self', sent) => Some (Raise e, self', sent)
  | None => None
  end.

End LoadBalancer.

(** The two statements that initialise the components of the service, for
    a given server list and given arguments of [HealthChecker]. *)
Definition initialize (servers : list ServerConfig.t) (timeout max_retries cache_ttl : Z)
    : Result LoadBalancer.t :=
  health_checker ← HealthChecker.__init__ timeout max_retries cache_ttl;
  LoadBalancer.__init__ servers health_checker.

(** The server list of the service. *)
Definition SERVERS : list ServerConfig.t :=
  [ ServerConfig.make "server1" "https://landing1.aimachengine.com";
    ServerConfig.make "server2" "https://go.aimachengine.com";
    ServerConfig.make "server3" "https://go1.aimachengine.com";
    ServerConfig.make "server4" "https://go2.aimachengine.com";
    ServerConfig.make "server5" "https://1.aimachengine.com";
    ServerConfig.make "server6" "https://2.aimachengine.com";
    ServerConfig.make "server7" "https://3.aimachengine.com";
    ServerConfig.make "server8" "https://4.aimachengine.com" ].

(** ** The first version of the service ([load-balancer-app.py]) *)

Module App.

(** The dictionary returned by [check_server_health]; [health] is a
    string there: the upstream's own ["status"], ["unhealthy"] or ["error"]. *)
Record Health : Type := mkHealth {
  name : string;
  url : string;
  health : string;
  response_time : option Q;
  score : Q;
  status_code : option Z;
  error : option string;
  last_checked : string
}.

(** [check_server_health]: every exception is caught ([except Exception]). *)
Definition check_server_health (server : ServerConfig.t) (io : ProbeIO) : Health :=
  let attempt : Result Health :=
    response ← session_get io;
    let '(code, body) := response in
    let response_time := elapsed_ms io in
    if decide (code = 200%Z) then
      health_data ← response_json body;
      status ← get_status_item health_data;
      score ← get_score_item health_data;
      Ok {| name := ServerConfig.name server; url := ServerConfig.url server;
            health := status; response_time := Some (py_round2 response_time);
            score := score; status_code := Some code; error := None;
            last_checked := stamp io |}
    else
      Ok {| name := ServerConfig.name server; url := ServerConfig.url server;
            health := "unhealthy"; response_time := Some (py_round2 response_time);
            score := 0; status_code := Some code; error := None;
            last_checked := stamp io |} in
  match attempt with
  | Ok h => h
  | Raise e =>
      {| name := ServerConfig.name server; url := ServerConfig.url server;
         health := "error"; response_time := None; score := 0;
         status_code := None; error := Some (str e); last_checked := stamp io |}
  end.

(** [get_all_server_health]: one probe after the other, in list order. *)
Fixpoint get_all_server_health (servers : list ServerConfig.t) (ios : list ProbeIO)
    : list Health :=
  match servers, ios with
  | server :: servers', io :: ios' =>
      check_server_health server io :: get_all_server_health servers' ios'
  | _, _ => []
  end.

(** The selection of [get_highest_score_server] on the list it obtained. *)
Definition highest_score (all_servers : list Health) : option Health :=
  let healthy_servers := filter (λ s, health s = "healthy") all_servers in
  match healthy_servers with
  | [] => None
  | s :: rest => Some (py_max_from score s rest)
  end.

Definition get_highest_score_server (servers : list ServerConfig.t)
    (ios : list ProbeIO) : option Health :=
  highest_score (get_all_server_health servers ios).

End App.

(** ** Records and the servers they describe *)

(** A record describes a server when it carries its name and its URL. *)
Definition describes (server : ServerConfig.t) (record : ServerHealth.t) : Prop :=
  ServerHealth.name record = ServerConfig.name server ∧
  ServerHealth.url record = ServerConfig.url server.

(** Every cache entry describes the servers of the list that have the URL
    it is stored under. *)
Definition cache_describes (servers : list ServerConfig.t)
    (cache : gmap string (ServerHealth.t * Q)) : Prop :=
  ∀ key record timestamp server,
    cache !! key = Some (record, timestamp) →
    server ∈ servers → ServerConfig.url server = key →
    describes server record.

(** Servers of the list that share a URL share their name. *)
Definition url_determines_name (servers : list ServerConfig.t) : Prop :=
  ∀ s1 s2, s1 ∈ servers → s2 ∈ servers →
    ServerConfig.url s1 = ServerConfig.url s2 →
    ServerConfig.name s1 = ServerConfig.name s2.

(** The answer that makes a probe raise. *)
Definition answers_non_object (io : ProbeIO) : Prop :=
  outcome io = Response 200 JsonOther.

(** Where a record served for the URL [key] during a snapshot can come
    from: the cache the snapshot started with, or the probe of a server of
    the list that has this URL. *)
Definition origin (self : HealthChecker.t) (servers : list ServerConfig.t)
    (ios : list ProbeIO) (key : string) (record : ServerHealth.t) : Prop :=
  (∃ timestamp, HealthChecker.cache self !! key = Some (record, timestamp)) ∨
  (∃ j server io,
     servers !! j = Some server ∧ ios !! j = Some io ∧
     ServerConfig.url server = key ∧ HealthChecker.probe server io = Ok record).

(** ** Invariants of the executor *)

(** Exceptions come from probes answered by a non-object body only. *)
Definition raises_explained (ios : list ProbeIO) (p : HealthChecker.Pool) : Prop :=
  ∀ i e, HealthChecker.tasks p !! i = Some (HealthChecker.Done (Raise e)) →
    ∃ io, ios !! i = Some io ∧ answers_non_object io.

(** Results and cache entries describe the servers they stand for. *)
Definition results_describe (servers : list ServerConfig.t)
    (p : HealthChecker.Pool) : Prop :=
  cache_describes servers (HealthChecker.cache (HealthChecker.checker p)) ∧
  ∀ i server r, servers !! i = Some server →
    HealthChecker.tasks p !! i = Some (HealthChecker.Done (Ok r)) →
    describes server r.

(** Every result and every cache entry has an origin. *)
Definition results_have_origin (servers : list ServerConfig.t) (ios : list ProbeIO)
    (self : HealthChecker.t) (p : HealthChecker.Pool) : Prop :=
  (∀ key record timestamp,
     HealthChecker.cache (HealthChecker.checker p) !! key = Some (record, timestamp) →
     origin self servers ios key record) ∧
  (∀ i server r, servers !! i = Some server →
     HealthChecker.tasks p !! i = Some (HealthChecker.Done (Ok r)) →
     origin self servers ios (ServerConfig.url server) r).

(** ** Sample data for the examples *)

(** A record as a probe of [name] at ["http://" ++ name] would make it. *)
Definition sample_record (name : string) (health : HealthStatus) (score : Q)
    : ServerHealth.t :=
  {| ServerHealth.name := name;
     ServerHealth.url := "http://" +:+ name;
     ServerHealth.health := health;
     ServerHealth.response_time :=
       match health with ERROR => None | _ => Some 42 end;
     ServerHealth.score := score;
     ServerHealth.status_code :=
       match health with ERROR => None | _ => Some 200%Z end;
     ServerHealth.error := None;
     ServerHealth.last_checked := "2024-01-01T00:00:00" |}.

(** The checker of the service: [HealthChecker(timeout=3, cache_ttl=10)]. *)
Definition health_checker : HealthChecker.t :=
  {| HealthChecker.timeout := 3;
     HealthChecker.cache_ttl := 10;
     HealthChecker.cache := ∅;
     HealthChecker.session := HealthChecker._create_session 2;
     HealthChecker.max_workers := 10 |}.

(** A checker whose cache holds a record of [server] stored at time 100. *)
Definition warm_checker (server : ServerConfig.t) (record : ServerHealth.t)
    : HealthChecker.t :=
  HealthChecker.mk 3 10 {[ ServerConfig.url server := (record, 100) ]}
    (HealthChecker._create_session 2) 10.

(** Two healthy records score 90, at the second and the fifth position. *)
Definition tie_snapshot : list ServerHealth.t :=
  [ sample_record "s1" HEALTHY 70; sample_record "s2" HEALTHY 90;
    sample_record "s3" UNHEALTHY 100; sample_record "s4" HEALTHY 85;
    sample_record "s5" HEALTHY 90; sample_record "s6" ERROR 0 ].

(** Answers of an upstream: a JSON object after [ms] milliseconds, a
    transport failure, a status other than 200 (one the session does not
    retry), and bodies that are not JSON or not an object.  The call reads
    the clock at [t]. *)
Definition object_io (t ms : Q) (score : option Q) : ProbeIO :=
  mkIO t (Response 200 (JsonObject (Some "ok") score)) ms (t + 1) "2024-01-01T00:00:00".

Definition failed_io (t : Q) (msg : string) : ProbeIO :=
  mkIO t (TransportFailure msg) 0 (t + 3) "2024-01-01T00:00:03".

Definition status_io (t : Q) (code : Z) : ProbeIO :=
  mkIO t (Response code (Undecodable "<html>")) 20 (t + 1) "2024-01-01T00:00:00".

Definition garbled_io (t : Q) : ProbeIO :=
  mkIO t (Response 200 (Undecodable "Expecting value")) 20 (t + 1) "2024-01-01T00:00:00".

Definition array_io (t : Q) : ProbeIO :=
  mkIO t (Response 200 JsonOther) 20 (t + 1) "2024-01-01T00:00:00".

(** Two servers behind one URL. *)
Definition twin_servers : list ServerConfig.t :=
  [ ServerConfig.make "a" "http://x"; ServerConfig.make "b" "http://x" ].

(** The first four servers of the service; the second one times out. *)
Definition four_servers : list ServerConfig.t := take 4 SERVERS.

Definition four_ios : list ProbeIO :=
  [ object_io 1000 40 (Some 90); failed_io 1000 "Read timed out";
    object_io 1000 250 None; status_io 1000 404 ].

(** All four requests are sent, then the third probe completes first. *)
Definition third_first : list HealthChecker.Event :=
  [ HealthChecker.Start 0; HealthChecker.Start 1; HealthChecker.Start 2;
    HealthChecker.Start 3; HealthChecker.Finish 2; HealthChecker.Finish 0;
    HealthChecker.Finish 3; HealthChecker.Finish 1 ].

(** A server list with a name used twice and an empty URL. *)
Definition broken_servers : list ServerConfig.t :=
  [ ServerConfig.make "server1" ""; ServerConfig.make "server1" "https://go.aimachengine.com" ].

(** ** The HTTP layer *)

(** JSON values, as [jsonify] receives them; the members of an object keep
    the order in which the dictionary was built ([JSON_SORT_KEYS] is off). *)
#[warnings="-register-all"]
Inductive Json : Type :=
| JNull
| JString (s : string)
| JNumber (q : Q)
| JInteger (z : Z)
| JArray (items : list Json)
| JObject (members : list (string * Json)).

(** An optional value: [None] is [null]. *)
Definition json_option {A : Type} (f : A → Json) (o : option A) : Json :=
  match o with Some a => f a | None => JNull end.

(** [HealthStatus.value]. *)
Definition HealthStatus_value (h : HealthStatus) : string :=
  match h with
  | HEALTHY => "healthy"
  | UNHEALTHY => "unhealthy"
  | ERROR => "error"
  end.

(** [ServerHealth.to_dict]. *)
Definition to_dict (self : ServerHealth.t) : Json :=
  JObject
    [ ("name", JString (ServerHealth.name self));
      ("url", JString (ServerHealth.url self));
      ("health", JString (HealthStatus_value (ServerHealth.health self)));
      ("response_time", json_option JNumber (ServerHealth.response_time self));
      ("score", JNumber (ServerHealth.score self));
      ("status_code", json_option JInteger (ServerHealth.status_code self));
      ("error", json_option JString (ServerHealth.error self));
      ("last_checked", JString (ServerHealth.last_checked self)) ].

(** The body of every 500 response of the first two routes. *)
Definition internal_server_error : Json :=
  JObject [("error", JString "Internal server error")].

(** [upload_endpoint], route [/server]: the response body and status, the
    load balancer afterwards and the requests sent. *)
Definition upload_endpoint (load_balancer : LoadBalancer.t) (ios : list ProbeIO)
    (schedule : list HealthChecker.Event)
    : option (Json * Z * LoadBalancer.t * list string) :=
  match LoadBalancer.get_best_server load_balancer ios schedule with
  | Some (Ok None, lb', sent) =>
      Some (JObject [ ("error", JString "No healthy servers available");
                      ("server", JNull);
                      ("health", JString "unavailable") ],
            503%Z, lb', sent)
  | Some (Ok (Some best_server), lb', sent) =>
      Some (JObject
              [ ("server", JString (ServerHealth.name best_server));
                ("server_url", JString (ServerHealth.url best_server));
                ("health", JString (HealthStatus_value (ServerHealth.health best_server)));
                ("score", JNumber (ServerHealth.score best_server));
                ("response_time",
                 json_option JNumber (ServerHealth.response_time best_server));
                ("last_checked", JString (ServerHealth.last_checked best_server)) ],
            200%Z, lb', sent)
  | Some (Raise e, lb', sent) => Some (internal_server_error, 500%Z, lb', sent)
  | None => None
  end.


(** [next((s for s in SERVERS if s.name == server_name), None)]. *)
Definition find_server (servers : list ServerConfig.t) (server_name : string)
    : option ServerConfig.t :=
  List.find (λ s, bool_decide (ServerConfig.name s = server_name)) servers.

(** [individual_server_health], route [/servers/<server_name>/health], for
    the server list [servers] and the checker [checker] of the service. *)
Definition individual_server_health (servers : list ServerConfig.t)
    (checker : HealthChecker.t) (server_name : string) (io : ProbeIO)
    : Json * Z * HealthChecker.t * list string :=
  match find_server servers server_name with
  | None => (JObject [("error", JString "Server not found")], 404%Z, checker, [])
  | Some server =>
      match HealthChecker.check_server checker server io with
      | (Ok health, checker', sent) => (to_dict health, 200%Z, checker', sent)
      | (Raise e, checker', sent) => (internal_server_error, 500%Z, checker', sent)
      end
  end.

(** The routes of the first version. *)
Module AppRoutes.

(** [upload_endpoint] of [load-balancer-app.py]: no handler is needed, for
    [check_server_health] raises nothing. *)
Definition upload_endpoint (servers : list ServerConfig.t) (ios : list ProbeIO)
    : Json * Z :=
  match App.get_highest_score_server servers ios with
  | None =>
      (JObject [ ("error", JString "No healthy servers available");
                 ("server", JNull);
                 ("health", JString "unavailable") ],
       503%Z)
  | Some best_server =>
      (JObject
         [ ("server", JString (App.name best_server));
           ("server_url", JString (App.url best_server));
           ("health", JString (App.health best_server));
           ("score", JNumber (App.score best_server));
           ("response_time", json_option JNumber (App.response_time best_server));
           ("last_checked", JString (App.last_checked best_server)) ],
       200%Z)
  end.

End AppRoutes.

(** ** Well-formed records *)

(** What every record built by a probe satisfies: a record that is not
    healthy scores 0; exactly the error records lack a response time and a
    status code; a healthy record has status code 200 and no error text. *)
Definition record_consistent (r : ServerHealth.t) : Prop :=
  (ServerHealth.health r ≠ HEALTHY → ServerHealth.score r = 0) ∧
  (ServerHealth.response_time r = None ↔ ServerHealth.health r = ERROR) ∧
  (ServerHealth.status_code r = None ↔ ServerHealth.health r = ERROR) ∧
  (ServerHealth.health r = HEALTHY →
   ServerHealth.error r = None ∧ ServerHealth.status_code r = Some 200%Z).

Definition cache_consistent (cache : gmap string (ServerHealth.t * Q)) : Prop :=
  ∀ key record timestamp,
    cache !! key = Some (record, timestamp) → record_consistent record.

(** A checker with fresh entries for the first two servers of the service. *)
Definition two_servers : list ServerConfig.t := take 2 SERVERS.

Definition warm_checker2 : HealthChecker.t :=
  HealthChecker.mk 3 10
    {[ "https://landing1.aimachengine.com" := (sample_record "server1" HEALTHY 90, 100);
       "https://go.aimachengine.com" := (sample_record "server2" UNHEALTHY 0, 101) ]}
    (HealthChecker._create_session 2) 10.

(** * Properties *)

(** ** Comparisons *)

Lemma Qltb_true (a b : Q) : Qltb a b = true ↔ a < b.
Proof.
  unfold Qltb. rewrite Qlt_alt.
  destruct (Qcompare a b); split; congruence.
Qed.

Lemma Qltb_false (a b : Q) : Qltb a b = false ↔ b <= a.
Proof.
  unfold Qltb. rewrite Qle_alt, <- Qgt_alt, Qlt_alt.
  destruct (Qcompare a b); split; congruence.
Qed.

Ltac case_Qltb :=
  match goal with
  | |- context [Qltb ?a ?b] =>
      let H := fresh "Hcmp" in
      destruct (Qltb a b) eqn:H;
      [apply Qltb_true in H | apply Qltb_false in H]
  end.

Lemma py_max2_ge_l (a b : Q) : a <= py_max2 a b.
Proof. unfold py_max2. case_Qltb; lra. Qed.

Lemma py_max2_ge_r (a b : Q) : b <= py_max2 a b.
Proof. unfold py_max2. case_Qltb; lra. Qed.

Lemma py_max2_Qmax (a b : Q) : py_max2 a b == Qmax a b.
Proof.
  unfold py_max2. case_Qltb.
  - symmetry. apply Q.max_r. lra.
  - symmetry. apply Q.max_l. lra.
Qed.

(** ** Scoring *)

(** The three bands of [_calculate_score]. *)
Lemma calculate_score_fast (ms : Q) : ms < 100 → _calculate_score ms = 100.
Proof.
  intros H. unfold _calculate_score.
  apply Qltb_true in H. now rewrite H.
Qed.

Lemma calculate_score_mid (ms : Q) :
  100 <= ms → ms < 500 → _calculate_score ms = 100 - (ms - 100) * 0.2.
Proof.
  intros H1 H2. unfold _calculate_score.
  apply Qltb_false in H1. apply Qltb_true in H2. now rewrite H1, H2.
Qed.

Lemma calculate_score_slow (ms : Q) :
  500 <= ms → _calculate_score ms = py_max2 1 (100 - ms * 0.1).
Proof.
  intros H. unfold _calculate_score.
  assert (H1 : 100 <= ms) by lra.
  apply Qltb_false in H, H1. now rewrite H1, H.
Qed.

(** C6. For every response time the latency score lies between 1 and 100,
    and it is given by the three bands: 100 below 100 ms,
    [100 - (ms - 100) * 0.2] from 100 ms up to 500 ms excluded, and
    [max(1, 100 - ms * 0.1)] from 500 ms on. *)
Theorem calculate_score_bounds (ms : Q) :
  (1 <= _calculate_score ms ∧ _calculate_score ms <= 100) ∧
  (ms < 100 → _calculate_score ms == 100) ∧
  (100 <= ms → ms < 500 → _calculate_score ms == 100 - (ms - 100) * 0.2) ∧
  (500 <= ms → _calculate_score ms == Qmax 1 (100 - ms * 0.1)).
Proof.
  repeat split.
  - unfold _calculate_score. repeat case_Qltb; try lra.
    apply py_max2_ge_l.
  - unfold _calculate_score. repeat case_Qltb; try lra.
    unfold py_max2. case_Qltb; lra.
  - intros H. now rewrite calculate_score_fast.
  - intros H1 H2. now rewrite calculate_score_mid.
  - intros H. rewrite calculate_score_slow by assumption. apply py_max2_Qmax.
Qed.

(** Within the first two bands, and within the third, a slower answer
    never scores higher. *)
Lemma calculate_score_monotone_below_500 (ms1 ms2 : Q) :
  ms1 <= ms2 → ms2 < 500 → _calculate_score ms2 <= _calculate_score ms1.
Proof.
  intros H1 H2. unfold _calculate_score.
  assert (Hb : Qltb ms1 500 = true) by (apply Qltb_true; lra).
  assert (Hc : Qltb ms2 500 = true) by (apply Qltb_true; lra).
  rewrite Hb, Hc. repeat case_Qltb; lra.
Qed.

Lemma calculate_score_monotone_from_500 (ms1 ms2 : Q) :
  500 <= ms1 → ms1 <= ms2 → _calculate_score ms2 <= _calculate_score ms1.
Proof.
  intros H1 H2.
  rewrite !calculate_score_slow by lra.
  unfold py_max2. repeat case_Qltb; lra.
Qed.

(** C1. The score is not monotone across the 500 ms boundary: an answer
    after 500 ms scores 50, an answer after 499 ms scores 20.2. *)
Theorem calculate_score_rises_at_500 :
  499 <= 500 ∧
  _calculate_score 499 == 20.2 ∧ _calculate_score 500 == 50 ∧
  ¬ (_calculate_score 500 <= _calculate_score 499).
Proof.
  repeat split; try reflexivity.
  - discriminate.
  - intros H. vm_compute in H. now apply H.
Qed.

(** The same two inputs on binary64 floats. *)
Example calculate_score_f64_rises_at_500 :
  PrimFloat.ltb (_calculate_score_f64 499) (_calculate_score_f64 500) = true ∧
  _calculate_score_f64 500 = 50%float.
Proof. split; vm_compute; reflexivity. Qed.

(** ** Selection *)

Section Selection.
Context {A : Type} (P : A → Prop) `{!∀ x, Decision (P x)} (key : A → Q).

Lemma py_max_from_elem (b : A) (rest : list A) :
  py_max_from key b rest ∈ b :: rest.
Proof.
  revert b. induction rest as [|x rest IH]; intros b; simpl.
  - apply list_elem_of_here.
  - destruct (Qltb (key b) (key x)).
    + apply list_elem_of_further, IH.
    + specialize (IH b). rewrite !elem_of_cons in *. tauto.
Qed.

Lemma py_max_from_ge_first (b : A) (rest : list A) :
  key b <= key (py_max_from key b rest).
Proof.
  revert b. induction rest as [|x rest IH]; intros b; simpl.
  - lra.
  - case_Qltb.
    + specialize (IH x). lra.
    + apply IH.
Qed.

Lemma py_max_from_ge (b : A) (rest : list A) (x : A) :
  x ∈ b :: rest → key x <= key (py_max_from key b rest).
Proof.
  revert b. induction rest as [|y rest IH]; intros b Hx; simpl.
  - apply elem_of_cons in Hx as [->|Hx]; [lra | inversion Hx].
  - apply elem_of_cons in Hx as [->|Hx].
    + case_Qltb.
      * pose proof (py_max_from_ge_first y rest). lra.
      * apply py_max_from_ge_first.
    + case_Qltb.
      * apply IH, Hx.
      * apply elem_of_cons in Hx as [->|Hx].
        -- pose proof (py_max_from_ge_first b rest). lra.
        -- apply IH. now apply list_elem_of_further.
Qed.

(** No later item replaces a running maximum that none of them exceeds. *)
Lemma py_max_from_keeps (b : A) (rest : list A) :
  Forall (λ x, key x <= key b) rest → py_max_from key b rest = b.
Proof.
  induction 1 as [|x rest Hx _ IH]; simpl; [reflexivity|].
  apply Qltb_false in Hx. now rewrite Hx.
Qed.

(** The first item that reaches the maximum is the one returned. *)
Lemma py_max_from_first (b r : A) (before after : list A) :
  key b < key r →
  Forall (λ x, key x < key r) before →
  Forall (λ x, key x <= key r) after →
  py_max_from key b (before ++ r :: after) = r.
Proof.
  intros Hb Hbefore Hafter. revert b Hb.
  induction Hbefore as [|x before Hx _ IH]; intros b Hb; simpl.
  - apply Qltb_true in Hb. rewrite Hb. now apply py_max_from_keeps.
  - destruct (Qltb (key b) (key x)); now apply IH.
Qed.

Lemma max_of_filtered_None (items : list A) :
  max_of_filtered P key items = None ↔ ∀ x, x ∈ items → ¬ P x.
Proof.
  unfold max_of_filtered. split.
  - destruct (filter P items) as [|s rest] eqn:E; [|discriminate].
    intros _ x Hx HP. eapply filter_nil_not_elem_of; eauto.
  - intros Hnone. destruct (filter P items) as [|s rest] eqn:E; [reflexivity|].
    assert (Hs : s ∈ filter P items) by (rewrite E; apply list_elem_of_here).
    apply list_elem_of_filter in Hs as [HP Hs]. now destruct (Hnone s Hs).
Qed.

Lemma max_of_filtered_Some (items : list A) (r : A) :
  max_of_filtered P key items = Some r →
  r ∈ items ∧ P r ∧ ∀ x, x ∈ items → P x → key x <= key r.
Proof.
  unfold max_of_filtered.
  destruct (filter P items) as [|s rest] eqn:E; [discriminate|].
  intros [= <-].
  assert (Hr : py_max_from key s rest ∈ filter P items)
    by (rewrite E; apply py_max_from_elem).
  apply list_elem_of_filter in Hr as [HP Hr].
  repeat split; [assumption..|].
  intros x Hx HPx. apply py_max_from_ge. rewrite <- E.
  now apply list_elem_of_filter.
Qed.

Lemma max_of_filtered_first (before after : list A) (r : A) :
  P r →
  (∀ x, x ∈ before → P x → key x < key r) →
  (∀ x, x ∈ after → P x → key x <= key r) →
  max_of_filtered P key (before ++ r :: after) = Some r.
Proof.
  intros HP Hbefore Hafter. unfold max_of_filtered.
  rewrite filter_app, filter_cons_True by assumption.
  assert (Hb : Forall (λ x, key x < key r) (filter P before)).
  { apply Forall_forall. intros x [HPx Hx]%list_elem_of_filter. auto. }
  assert (Ha : Forall (λ x, key x <= key r) (filter P after)).
  { apply Forall_forall. intros x [HPx Hx]%list_elem_of_filter. auto. }
  destruct (filter P before) as [|b before'] eqn:E; simpl.
  - f_equal. now apply py_max_from_keeps.
  - f_equal. inversion Hb; subst. now apply py_max_from_first.
Qed.

Lemma max_of_filtered_first_at (items : list A) (i : nat) (r : A) :
  items !! i = Some r →
  P r →
  (∀ j x, items !! j = Some x → P x → key x <= key r) →
  (∀ j x, (j < i)%nat → items !! j = Some x → P x → key x < key r) →
  max_of_filtered P key items = Some r.
Proof.
  intros Hi HP Hall Hbefore.
  rewrite <- (take_drop_middle items i r Hi).
  apply max_of_filtered_first; [assumption| |].
  - intros x [j Hj]%list_elem_of_lookup HPx.
    pose proof (lookup_lt_Some _ _ _ Hj) as Hlt.
    rewrite length_take in Hlt.
    rewrite lookup_take_lt in Hj by lia.
    apply (Hbefore j); [lia|assumption..].
  - intros x [j Hj]%list_elem_of_lookup HPx.
    rewrite lookup_drop in Hj. eauto.
Qed.

End Selection.

Lemma best_max_of_filtered (all_servers : list ServerHealth.t) :
  LoadBalancer.best all_servers =
  max_of_filtered (λ s, ServerHealth.health s = HEALTHY) ServerHealth.score all_servers.
Proof. reflexivity. Qed.

Lemma highest_score_max_of_filtered (all_servers : list App.Health) :
  App.highest_score all_servers =
  max_of_filtered (λ s, App.health s = "healthy") App.score all_servers.
Proof. reflexivity. Qed.


(** The example of the specification: an unhealthy record with the highest
    score field is not a candidate. *)
Example best_ignores_unhealthy_score :
  LoadBalancer.best
    [sample_record "a" HEALTHY 80; sample_record "b" HEALTHY 95;
     sample_record "c" UNHEALTHY 100]
  = Some (sample_record "b" HEALTHY 95).
Proof. reflexivity. Qed.

Example best_none_when_all_down :
  LoadBalancer.best [sample_record "a" UNHEALTHY 0; sample_record "b" ERROR 0] = None.
Proof. reflexivity. Qed.

(** The same for the selector of the first version. *)
Lemma highest_score_only_healthy_maximum (all_servers : list App.Health) :
  (App.highest_score all_servers = None ↔
     ∀ r, r ∈ all_servers → App.health r ≠ "healthy") ∧
  (∀ r, App.highest_score all_servers = Some r →
     r ∈ all_servers ∧ App.health r = "healthy" ∧
     ∀ r', r' ∈ all_servers → App.health r' = "healthy" → App.score r' <= App.score r).
Proof.
  rewrite highest_score_max_of_filtered. split.
  - apply max_of_filtered_None.
  - intros r.
    apply (max_of_filtered_Some (λ s, App.health s = "healthy") App.score).
Qed.

(** C5. Ties are broken by position: when the healthy record at position
    [i] has the maximum score among the healthy records and every healthy
    record before it scores strictly less, the selector returns that very
    record.  The selector is a function of the snapshot, so the same
    snapshot always gets the same answer. *)
Theorem best_first_among_ties (snapshot : list ServerHealth.t) (i : nat)
    (r : ServerHealth.t) :
  snapshot !! i = Some r →
  ServerHealth.health r = HEALTHY →
  (∀ j r', snapshot !! j = Some r' → ServerHealth.health r' = HEALTHY →
           ServerHealth.score r' <= ServerHealth.score r) →
  (∀ j r', (j < i)%nat → snapshot !! j = Some r' →
           ServerHealth.health r' = HEALTHY →
           ServerHealth.score r' < ServerHealth.score r) →
  LoadBalancer.best snapshot = Some r.
Proof.
  intros Hi Hh Hmax Hbefore. rewrite best_max_of_filtered.
  now apply (max_of_filtered_first_at _ _ snapshot i r).
Qed.

Lemma best_first_among_ties_witness :
  LoadBalancer.best tie_snapshot = Some (sample_record "s2" HEALTHY 90).
Proof.
  apply (best_first_among_ties tie_snapshot 1).
  - reflexivity.
  - reflexivity.
  - intros j r' Hj Hh.
    do 6 (destruct j as [|j]; [injection Hj as <-; first [discriminate Hh | vm_compute; discriminate]|]).
    discriminate Hj.
  - intros j r' Hlt Hj Hh.
    destruct j as [|j]; [injection Hj as <-; vm_compute; reflexivity|lia].
Defined.

(** The selector of the first version breaks ties the same way. *)
Lemma highest_score_first_among_ties (all_servers : list App.Health) (i : nat)
    (r : App.Health) :
  all_servers !! i = Some r →
  App.health r = "healthy" →
  (∀ j r', all_servers !! j = Some r' → App.health r' = "healthy" →
           App.score r' <= App.score r) →
  (∀ j r', (j < i)%nat → all_servers !! j = Some r' → App.health r' = "healthy" →
           App.score r' < App.score r) →
  App.highest_score all_servers = Some r.
Proof.
  intros Hi Hh Hmax Hbefore. rewrite highest_score_max_of_filtered.
  now apply (max_of_filtered_first_at _ _ all_servers i r).
Qed.

(** ** One health check *)

Section CheckServer.
Import HealthChecker.
Implicit Types (self : HealthChecker.t) (server : ServerConfig.t) (io : ProbeIO).

Lemma is_cache_valid_true self server_url time_time :
  _is_cache_valid self server_url time_time = true ↔
  ∃ record timestamp,
    cache self !! server_url = Some (record, timestamp) ∧
    time_time - timestamp < inject_Z (cache_ttl self).
Proof.
  unfold _is_cache_valid. split.
  - destruct (cache self !! server_url) as [[record timestamp]|]; [|discriminate].
    intros H%Qltb_true. eauto.
  - intros (record & timestamp & -> & H). now apply Qltb_true.
Qed.

Lemma is_cache_valid_false self server_url time_time :
  _is_cache_valid self server_url time_time = false ↔
  cache self !! server_url = None ∨
  ∃ record timestamp,
    cache self !! server_url = Some (record, timestamp) ∧
    inject_Z (cache_ttl self) <= time_time - timestamp.
Proof.
  unfold _is_cache_valid. split.
  - destruct (cache self !! server_url) as [[record timestamp]|]; [|auto].
    intros H%Qltb_false. eauto.
  - intros [->|(record & timestamp & -> & H)]; [reflexivity|].
    now apply Qltb_false.
Qed.

Lemma check_server_hit self server io record timestamp :
  cache self !! ServerConfig.url server = Some (record, timestamp) →
  now io - timestamp < inject_Z (cache_ttl self) →
  check_server self server io = (Ok record, self, []).
Proof.
  intros Hc Hfresh. unfold check_server.
  assert (Hv : _is_cache_valid self (ServerConfig.url server) (now io) = true)
    by (apply is_cache_valid_true; eauto).
  now rewrite Hv, Hc.
Qed.

Lemma check_server_miss self server io :
  _is_cache_valid self (ServerConfig.url server) (now io) = false →
  check_server self server io =
  match probe server io with
  | Ok health =>
      (Ok health,
       set_cache self (ServerConfig.url server) (health, stored_at io),
       [health_url server])
  | Raise e => (Raise e, self, [health_url server])
  end.
Proof. intros Hv. unfold check_server. now rewrite Hv. Qed.

(** Every record a probe builds carries the name and the URL of the
    server probed. *)
Lemma probe_describes_server server io record :
  probe server io = Ok record →
  ServerHealth.name record = ServerConfig.name server ∧
  ServerHealth.url record = ServerConfig.url server.
Proof.
  unfold probe, session_get, on_200, response_json, get_score.
  destruct (outcome io) as [msg|code body]; simpl.
  - intros [= <-]. auto.
  - destruct (decide (code = 200%Z)) as [->|Hne]; simpl.
    + destruct body as [msg|status [s|]|]; simpl; intros [= <-]; auto.
    + intros [= <-]. auto.
Qed.

(** The only exception that escapes a probe: a 200 response whose body
    is JSON but not an object. *)
Lemma probe_raises server io e :
  probe server io = Raise e ↔
  outcome io = Response 200 JsonOther ∧
  e = AttributeError "object has no attribute 'get'".
Proof.
  unfold probe, session_get, on_200, response_json, get_score.
  destruct (outcome io) as [msg|code body]; simpl.
  - split; [discriminate | intros [[=] _]].
  - destruct (decide (code = 200%Z)) as [->|Hne]; simpl.
    + destruct body as [msg|status [s|]|]; simpl;
        (split; [try discriminate; intros [= <-]; auto | intros [[=] ->]; auto]).
    + split; [discriminate | intros [[= ? ?] _]; congruence].
Qed.

End CheckServer.

(** C7. A health check of a server whose cache entry is younger than the
    TTL returns the cached record, sends no request and leaves the checker
    as it was.  When there is no entry, or the entry is as old as the TTL or
    older, the check sends one request to the server's health URL and its
    result is the one of that probe, whatever the cache holds. *)
Theorem check_server_cache_freshness (self : HealthChecker.t)
    (server : ServerConfig.t) (io : ProbeIO) :
  (∀ record timestamp,
     HealthChecker.cache self !! ServerConfig.url server = Some (record, timestamp) →
     now io - timestamp < inject_Z (HealthChecker.cache_ttl self) →
     HealthChecker.check_server self server io = (Ok record, self, [])) ∧
  (HealthChecker.cache self !! ServerConfig.url server = None ∨
   (∃ record timestamp,
      HealthChecker.cache self !! ServerConfig.url server = Some (record, timestamp) ∧
      inject_Z (HealthChecker.cache_ttl self) <= now io - timestamp) →
   (HealthChecker.check_server self server io).1.1 = HealthChecker.probe server io ∧
   (HealthChecker.check_server self server io).2 = [HealthChecker.health_url server]).
Proof.
  split.
  - intros record timestamp. apply check_server_hit.
  - intros Hstale%is_cache_valid_false.
    rewrite check_server_miss by assumption.
    destruct (HealthChecker.probe server io); auto.
Qed.

(** The entry is served up to, and not at, the end of the TTL window. *)
Example check_server_just_fresh :
  let server := ServerConfig.make "a" "http://a" in
  let record := sample_record "a" HEALTHY 90 in
  HealthChecker.check_server (warm_checker server record) server
    (mkIO (109 + 999 # 1000) (TransportFailure "timed out") 0 110 "t")
  = (Ok record, warm_checker server record, []).
Proof. reflexivity. Qed.

Example check_server_just_stale :
  let server := ServerConfig.make "a" "http://a" in
  let record := sample_record "a" HEALTHY 90 in
  let r := HealthChecker.check_server (warm_checker server record) server
             (mkIO 110 (TransportFailure "timed out") 0 110 "t") in
  (∃ h, r.1.1 = Ok h ∧ ServerHealth.health h = ERROR) ∧ r.2 = ["http://a/health"].
Proof. split; [eexists; split; reflexivity | reflexivity]. Qed.

(** C10. Whatever record a probe returns, healthy or not, the check stores
    it under the server's URL with the time of the store; from then on every
    check of that server made less than the TTL after the store returns
    that record and sends no request. *)
Theorem probe_outcome_cached_until_ttl (self : HealthChecker.t)
    (server : ServerConfig.t) (io : ProbeIO) (record : ServerHealth.t) :
  HealthChecker._is_cache_valid self (ServerConfig.url server) (now io) = false →
  HealthChecker.probe server io = Ok record →
  HealthChecker.check_server self server io =
    (Ok record,
     HealthChecker.set_cache self (ServerConfig.url server) (record, stored_at io),
     [HealthChecker.health_url server]) ∧
  HealthChecker.cache
    (HealthChecker.set_cache self (ServerConfig.url server) (record, stored_at io))
    !! ServerConfig.url server = Some (record, stored_at io) ∧
  ∀ io',
    now io' - stored_at io < inject_Z (HealthChecker.cache_ttl self) →
    HealthChecker.check_server
      (HealthChecker.set_cache self (ServerConfig.url server) (record, stored_at io))
      server io' =
    (Ok record,
     HealthChecker.set_cache self (ServerConfig.url server) (record, stored_at io),
     []).
Proof.
  intros Hmiss Hprobe.
  assert (Hstored :
    HealthChecker.cache
      (HealthChecker.set_cache self (ServerConfig.url server) (record, stored_at io))
      !! ServerConfig.url server = Some (record, stored_at io))
    by apply lookup_insert_eq.
  split; [|split].
  - rewrite check_server_miss by assumption. now rewrite Hprobe.
  - exact Hstored.
  - intros io' Hfresh. now apply (check_server_hit _ _ _ record (stored_at io)).
Qed.

(** C2, as the code has it.  On a 200 response a probe gives an unhealthy
    record with score 0, the error text and the measured response time when
    the body is not JSON; when the body is a JSON object it gives a healthy
    record, scored by the object's own score or, if the object has none, by
    the latency rule. *)
Theorem ok_response_body_handling (self : HealthChecker.t)
    (server : ServerConfig.t) (io : ProbeIO) :
  HealthChecker._is_cache_valid self (ServerConfig.url server) (now io) = false →
  (∀ msg, outcome io = Response 200 (Undecodable msg) →
     ∃ r, HealthChecker.check_server self server io =
            (Ok r,
             HealthChecker.set_cache self (ServerConfig.url server) (r, stored_at io),
             [HealthChecker.health_url server]) ∧
          ServerHealth.health r = UNHEALTHY ∧
          ServerHealth.score r = 0 ∧
          ServerHealth.error r = Some "Invalid health response" ∧
          ServerHealth.response_time r = Some (py_round2 (elapsed_ms io)) ∧
          ServerHealth.status_code r = Some 200%Z) ∧
  (∀ status score_member, outcome io = Response 200 (JsonObject status score_member) →
     ∃ r, HealthChecker.check_server self server io =
            (Ok r,
             HealthChecker.set_cache self (ServerConfig.url server) (r, stored_at io),
             [HealthChecker.health_url server]) ∧
          ServerHealth.health r = HEALTHY ∧
          ServerHealth.score r =
            default (_calculate_score (elapsed_ms io)) score_member ∧
          ServerHealth.error r = None ∧
          ServerHealth.response_time r = Some (py_round2 (elapsed_ms io)) ∧
          ServerHealth.status_code r = Some 200%Z).
Proof.
  intros Hmiss. split.
  - intros msg Hout. rewrite check_server_miss by assumption.
    unfold HealthChecker.probe, session_get. rewrite Hout. simpl.
    eexists. repeat split.
  - intros status score_member Hout. rewrite check_server_miss by assumption.
    unfold HealthChecker.probe, session_get. rewrite Hout.
    destruct score_member; simpl; eexists; repeat split.
Qed.

(** C3, as the code has it.  Initialisation checks nothing and cannot fail:
    whatever the server list and the arguments, it yields a load balancer
    holding that list and a checker with those arguments, an empty cache
    and ten workers. *)
Theorem initialize_never_fails (servers : list ServerConfig.t)
    (timeout max_retries cache_ttl : Z) :
  initialize servers timeout max_retries cache_ttl =
  Ok {| LoadBalancer.servers := servers;
        LoadBalancer.health_checker :=
          {| HealthChecker.timeout := timeout;
             HealthChecker.cache_ttl := cache_ttl;
             HealthChecker.cache := ∅;
             HealthChecker.session := HealthChecker._create_session max_retries;
             HealthChecker.max_workers := 10 |} |}.
Proof. reflexivity. Qed.

(** ** The executor *)

Section Executor.
Import HealthChecker.
Variables (servers : list ServerConfig.t) (ios : list ProbeIO).

(** What a step does, case by case. *)
Lemma start_inv i p p' :
  start servers ios i p = Some p' →
  ∃ server io,
    tasks p !! i = Some Queued ∧ servers !! i = Some server ∧ ios !! i = Some io ∧
    (running (tasks p) < max_workers (checker p))%nat ∧
    ((∃ record timestamp,
        cache (checker p) !! ServerConfig.url server = Some (record, timestamp) ∧
        now io - timestamp < inject_Z (cache_ttl (checker p)) ∧
        p' = mkPool (checker p) (<[i := Done (Ok record)]> (tasks p)) (sent p)) ∨
     (_is_cache_valid (checker p) (ServerConfig.url server) (now io) = false ∧
      p' = mkPool (checker p) (<[i := Waiting]> (tasks p))
             (sent p ++ [health_url server]))).
Proof.
  unfold start. intros H.
  destruct (tasks p !! i) as [[| |r]|] eqn:Ht; try discriminate.
  destruct (servers !! i) as [server|] eqn:Hs; try discriminate.
  destruct (ios !! i) as [io|] eqn:Hio; try discriminate.
  destruct (decide _) as [Hw|]; try discriminate.
  exists server, io. repeat split; try assumption.
  destruct (_is_cache_valid _ _ _) eqn:Hv.
  - apply is_cache_valid_true in Hv as (record & timestamp & Hc & Hfresh).
    rewrite Hc in H. injection H as <-. left. eauto 6.
  - injection H as <-. right. auto.
Qed.

Lemma finish_inv i p p' :
  finish servers ios i p = Some p' →
  ∃ server io,
    tasks p !! i = Some Waiting ∧ servers !! i = Some server ∧ ios !! i = Some io ∧
    ((∃ health,
        probe server io = Ok health ∧
        p' = mkPool (set_cache (checker p) (ServerConfig.url server)
                       (health, stored_at io))
               (<[i := Done (Ok health)]> (tasks p)) (sent p)) ∨
     (∃ e,
        probe server io = Raise e ∧
        p' = mkPool (checker p) (<[i := Done (Raise e)]> (tasks p)) (sent p))).
Proof.
  unfold finish. intros H.
  destruct (tasks p !! i) as [[| |r]|] eqn:Ht; try discriminate.
  destruct (servers !! i) as [server|] eqn:Hs; try discriminate.
  destruct (ios !! i) as [io|] eqn:Hio; try discriminate.
  exists server, io. repeat split; try assumption.
  destruct (probe server io) as [health|e]; injection H as <-; eauto.
Qed.


(** A property kept by every step holds after every schedule. *)
Lemma run_invariant (I : Pool → Prop) :
  (∀ ev p p', I p → step servers ios ev p = Some p' → I p') →
  ∀ schedule p p', I p → run servers ios schedule p = Some p' → I p'.
Proof.
  intros Hstep schedule.
  induction schedule as [|ev schedule IH]; intros p p' HI Hrun; simpl in Hrun.
  - now injection Hrun as <-.
  - destruct (step servers ios ev p) as [p1|] eqn:E; [|discriminate].
    eapply IH; [|eassumption]. eapply Hstep; eassumption.
Qed.

Lemma step_tasks_length ev p p' :
  step servers ios ev p = Some p' → length (tasks p') = length (tasks p).
Proof.
  destruct ev as [i|i]; simpl.
  - intros (server & io & _ & _ & _ & _ & [(r & t & _ & _ & ->)|[_ ->]])%start_inv;
      simpl; apply length_insert.
  - intros (server & io & _ & _ & _ & [(h & _ & ->)|(e & _ & ->)])%finish_inv;
      simpl; apply length_insert.
Qed.

Lemma run_tasks_length schedule p p' :
  run servers ios schedule p = Some p' → length (tasks p') = length (tasks p).
Proof.
  intros Hrun.
  apply (run_invariant (λ q, length (tasks q) = length (tasks p)))
    with (schedule := schedule) (p := p); auto.
  intros ev q q' Hq Hstep. rewrite <- Hq. eapply step_tasks_length, Hstep.
Qed.

(** The list awaited in order: a list of records has one record per task,
    each the result of the task at its position; an exception is the one
    a task raised. *)
Lemma gather_Ok tasks results :
  gather tasks = Some (Ok results) →
  length results = length tasks ∧
  ∀ i, Done ∘ Ok <$> results !! i = tasks !! i.
Proof.
  revert results. induction tasks as [|k tasks IH]; intros results; simpl.
  - intros [= <-]. split; [reflexivity|]. intros i. now rewrite !lookup_nil.
  - destruct k as [| |[r|e]]; try discriminate.
    destruct (gather tasks) as [[rs|e]|]; try discriminate.
    intros [= <-]. destruct (IH rs eq_refl) as [Hlen Hat].
    split; [simpl; now rewrite Hlen|].
    intros [|i]; [reflexivity|]. apply Hat.
Qed.

Lemma gather_Raise tasks e :
  gather tasks = Some (Raise e) → ∃ i, tasks !! i = Some (Done (Raise e)).
Proof.
  induction tasks as [|k tasks IH]; simpl; [discriminate|].
  destruct k as [| |[r|e']]; try discriminate.
  - destruct (gather tasks) as [[rs|e']|]; try discriminate.
    intros [= ->]. destruct (IH eq_refl) as [i Hi]. now exists (S i).
  - intros [= ->]. now exists 0%nat.
Qed.

Lemma gather_all_done tasks :
  (∀ i k, tasks !! i = Some k → ∃ r, k = Done r) → is_Some (gather tasks).
Proof.
  induction tasks as [|k tasks IH]; intros Hdone; simpl; [eauto|].
  destruct (Hdone 0%nat k eq_refl) as [r ->].
  destruct r as [r|e]; [|eauto].
  destruct IH as [res Hres]; [intros i k Hk; apply (Hdone (S i) k Hk)|].
  rewrite Hres. destruct res; eauto.
Qed.

Lemma step_raises_explained ev p p' :
  raises_explained ios p → step servers ios ev p = Some p' → raises_explained ios p'.
Proof.
  intros HI Hstep j e Hj. destruct ev as [i|i]; simpl in Hstep.
  - apply start_inv in Hstep
      as (server & io & _ & _ & _ & _ & [(r & t & _ & _ & ->)|[_ ->]]);
      simpl in Hj; apply list_lookup_insert_Some in Hj
      as [(_ & [=] & _)|[_ Hj]]; eauto.
  - apply finish_inv in Hstep
      as (server & io & _ & _ & Hio & [(h & _ & ->)|(e' & He' & ->)]);
      simpl in Hj; apply list_lookup_insert_Some in Hj
      as [(<- & [=] & _)|[_ Hj]]; eauto.
    subst e'. apply probe_raises in He' as [Hout _].
    exists io. auto.
Qed.

Lemma step_results_describe ev p p' :
  url_determines_name servers →
  results_describe servers p → step servers ios ev p = Some p' → results_describe servers p'.
Proof.
  intros Hurl [Hcache Hres] Hstep. destruct ev as [i|i]; simpl in Hstep.
  - apply start_inv in Hstep
      as (server & io & _ & Hs & _ & _ & [(r & t & Hc & _ & ->)|[_ ->]]);
      (split; [exact Hcache|]); simpl; intros j server' r' Hs' Hj;
      apply list_lookup_insert_Some in Hj as [(<- & [=] & _)|[_ Hj]]; eauto.
    subst r'. assert (server' = server) as -> by congruence.
    eapply Hcache; eauto. eapply list_elem_of_lookup_2, Hs.
  - apply finish_inv in Hstep
      as (server & io & _ & Hs & _ & [(h & Hp & ->)|(e' & _ & ->)]); simpl.
    + apply probe_describes_server in Hp as [Hname Hu].
      split.
      * intros key record timestamp server' Hk Hin' Hkey. simpl in Hk.
        apply lookup_insert_Some in Hk as [[<- [= <- <-]]|[_ Hk]]; [|eauto].
        split; [|congruence].
        rewrite Hname. symmetry. apply Hurl; auto.
        eapply list_elem_of_lookup_2, Hs.
      * intros j server' r' Hs' Hj.
        apply list_lookup_insert_Some in Hj as [(<- & [=] & _)|[_ Hj]]; eauto.
        subst r'. assert (server' = server) as -> by congruence.
        split; assumption.
    + split; [exact Hcache|]. intros j server' r' Hs' Hj.
      apply list_lookup_insert_Some in Hj as [(_ & [=] & _)|[_ Hj]]; eauto.
Qed.

Lemma submit_all_tasks self i :
  tasks (submit_all self servers) !! i = (λ _, Queued) <$> servers !! i.
Proof. unfold submit_all. simpl. apply list_lookup_fmap. Qed.


Lemma set_cache_max_workers self key value :
  max_workers (set_cache self key value) = max_workers self.
Proof. reflexivity. Qed.

Lemma running_no_waiting (ts : list Task) :
  (∀ i, ts !! i ≠ Some Waiting) → running ts = 0%nat.
Proof.
  unfold running. induction ts as [|k ts IH]; intros Hno; [reflexivity|].
  rewrite filter_cons_False.
  - apply IH. intros i. apply (Hno (S i)).
  - destruct k; simpl; try tauto. now destruct (Hno 0%nat).
Qed.

Lemma step_max_workers ev p p' :
  step servers ios ev p = Some p' →
  max_workers (checker p') = max_workers (checker p).
Proof.
  destruct ev as [i|i]; simpl.
  - intros (server & io & _ & _ & _ & _ & [(r & t & _ & _ & ->)|[_ ->]])%start_inv;
      reflexivity.
  - intros (server & io & _ & _ & _ & [(h & _ & ->)|(e & _ & ->)])%finish_inv;
      reflexivity.
Qed.

Lemma run_max_workers schedule p p' :
  run servers ios schedule p = Some p' →
  max_workers (checker p') = max_workers (checker p).
Proof.
  intros Hrun.
  apply (run_invariant (λ q, max_workers (checker q) = max_workers (checker p)))
    with (schedule := schedule) (p := p); auto.
  intros ev q q' Hq Hstep. rewrite <- Hq. eapply step_max_workers, Hstep.
Qed.

Lemma run_app schedule1 schedule2 p p1 :
  run servers ios schedule1 p = Some p1 →
  run servers ios (schedule1 ++ schedule2) p = run servers ios schedule2 p1.
Proof.
  revert p. induction schedule1 as [|ev schedule1 IH]; intros p; simpl.
  - now intros [= ->].
  - destruct (step servers ios ev p); [apply IH|discriminate].
Qed.

(** A request in flight can always be answered. *)
Lemma finish_enabled i p :
  tasks p !! i = Some Waiting → is_Some (servers !! i) → is_Some (ios !! i) →
  ∃ p' r, finish servers ios i p = Some p' ∧ tasks p' = <[i := Done r]> (tasks p) ∧
          max_workers (checker p') = max_workers (checker p).
Proof.
  intros Hw [server Hs] [io Hio]. unfold finish. rewrite Hw, Hs, Hio.
  destruct (probe server io); eauto 6.
Qed.

(** Answering the requests in flight leaves no task of [todo] waiting and
    touches no other task. *)
Lemma finish_waiting_completes (todo : list nat) :
  ∀ p,
    (∀ i, i ∈ todo → is_Some (servers !! i) ∧ is_Some (ios !! i)) →
    ∃ p',
      run servers ios (finish_waiting servers ios todo p) p = Some p' ∧
      (∀ i, i ∈ todo → tasks p' !! i ≠ Some Waiting) ∧
      (∀ i, tasks p !! i ≠ Some Waiting → tasks p' !! i = tasks p !! i).
Proof.
  induction todo as [|i todo IH]; intros p Htodo.
  - exists p. split; [reflexivity|]. split; [|reflexivity].
    intros i Hi. inversion Hi.
  - assert (Htodo' : ∀ j, j ∈ todo → is_Some (servers !! j) ∧ is_Some (ios !! j))
      by (intros j Hj; apply Htodo; now apply list_elem_of_further).
    simpl. destruct (finish servers ios i p) as [p1|] eqn:Hfin.
    + destruct (IH p1 Htodo') as (p' & Hrun & Hnone & Hsame).
      pose proof Hfin as Hfin'.
      apply finish_inv in Hfin' as (server & io & Hw & _ & _ & Hp1).
      assert (Hp1' : ∃ r, tasks p1 = <[i := Done r]> (tasks p))
        by (destruct Hp1 as [(h & _ & ->)|(e & _ & ->)]; eauto).
      destruct Hp1' as [r Htasks].
      pose proof (lookup_lt_Some _ _ _ Hw) as Hlt.
      assert (Hi1 : tasks p1 !! i = Some (Done r))
        by (rewrite Htasks; now apply list_lookup_insert_eq).
      exists p'. split; [simpl; rewrite Hfin; exact Hrun|]. split.
      * intros j [->|Hj]%elem_of_cons; [|auto].
        rewrite Hsame; rewrite Hi1; discriminate.
      * intros j Hj. destruct (decide (j = i)) as [->|Hne]; [congruence|].
        assert (Hj1 : tasks p1 !! j = tasks p !! j)
          by (rewrite Htasks; now apply list_lookup_insert_ne).
        rewrite Hsame; rewrite Hj1; [reflexivity|assumption].
    + destruct (IH p Htodo') as (p' & Hrun & Hnone & Hsame).
      exists p'. split; [exact Hrun|]. split; [|exact Hsame].
      intros j [->|Hj]%elem_of_cons; [|auto].
      assert (Hi : tasks p !! i ≠ Some Waiting).
      { intros Hw. destruct (Htodo i) as [Hs Hio]; [apply list_elem_of_here|].
        destruct (finish_enabled i p Hw Hs Hio) as (? & ? & ? & _). congruence. }
      rewrite Hsame; assumption.
Qed.

(** The sequential schedule can be run from a pool in which no request is
    in flight; it leaves the tasks of [todo] done, the done ones as they
    were, and no request in flight. *)
Lemma sequential_completes (todo : list nat) :
  ∀ p,
    length (tasks p) = length servers →
    length ios = length servers →
    (∀ i, i ∈ todo → (i < length servers)%nat) →
    (∀ j, tasks p !! j ≠ Some Waiting) →
    (0 < max_workers (checker p))%nat →
    ∃ p',
      run servers ios (sequential servers ios todo p) p = Some p' ∧
      (∀ i, i ∈ todo → ∃ r, tasks p' !! i = Some (Done r)) ∧
      (∀ i r, tasks p !! i = Some (Done r) → tasks p' !! i = Some (Done r)) ∧
      (∀ j, tasks p' !! j ≠ Some Waiting).
Proof.
  induction todo as [|i todo IH]; intros p Hlen Hlen' Htodo Hno Hworkers.
  - exists p. split; [reflexivity|]. split; [|split; auto].
    intros i Hi. inversion Hi.
  - assert (Htodo' : ∀ j, j ∈ todo → (j < length servers)%nat)
      by (intros j Hj; apply Htodo; now apply list_elem_of_further).
    assert (Hi : (i < length servers)%nat) by apply Htodo, list_elem_of_here.
    destruct (lookup_lt_is_Some_2 (tasks p) i) as [k Hk]; [lia|].
    destruct (lookup_lt_is_Some_2 servers i Hi) as [server Hs].
    destruct (lookup_lt_is_Some_2 ios i) as [io Hio]; [lia|].
    pose proof (lookup_lt_Some _ _ _ Hk) as Hlt.
    (* what replacing the task [i] by a done one keeps *)
    assert (Hswap : ∀ ts r,
      length ts = length (tasks p) →
      (∀ j, j ≠ i → ts !! j = tasks p !! j) →
      tasks p !! i = Some Queued →
      (∀ j, <[i := Done r]> ts !! j ≠ Some Waiting) ∧
      (∀ j r', tasks p !! j = Some (Done r') →
               <[i := Done r]> ts !! j = Some (Done r'))).
    { intros ts r Hl Hts Hq. split.
      - intros j. destruct (decide (j = i)) as [->|Hne].
        + rewrite list_lookup_insert_eq by lia. discriminate.
        + rewrite list_lookup_insert_ne by auto. rewrite Hts by assumption. apply Hno.
      - intros j r' Hj. destruct (decide (j = i)) as [->|Hne]; [congruence|].
        rewrite list_lookup_insert_ne by auto. now rewrite Hts. }
    destruct k as [| |r0]; [| now destruct (Hno i) |].
    + (* queued: it can start, since nothing runs *)
      assert (Hstart : ∃ p1, start servers ios i p = Some p1 ∧
        ((∃ r, p1 = mkPool (checker p) (<[i := Done r]> (tasks p)) (sent p)) ∨
         p1 = mkPool (checker p) (<[i := Waiting]> (tasks p))
                (sent p ++ [health_url server]))).
      { unfold start. rewrite Hk, Hs, Hio.
        rewrite (running_no_waiting _ Hno).
        destruct (decide _) as [_|Hn]; [|lia].
        destruct (_is_cache_valid _ _ _); [|eauto].
        destruct (cache (checker p) !! ServerConfig.url server); eauto. }
      destruct Hstart as (p1 & Hstart & [[r ->]| ->]).
      * set (p1 := mkPool (checker p) (<[i := Done r]> (tasks p)) (sent p)) in *.
        assert (Hd : tasks p1 !! i = Some (Done r))
          by (simpl; now apply list_lookup_insert_eq).
        destruct (Hswap (tasks p) r eq_refl (λ _ _, eq_refl) Hk) as [Hno1 Hkeep1].
        destruct (IH p1) as (p' & Hrun & Hdone & Hkeep & Hno'); try assumption.
        { simpl. now rewrite length_insert. }
        exists p'.
        split; [simpl; rewrite Hstart, Hd; simpl; rewrite Hstart; exact Hrun|].
        split; [|split; [|assumption]].
        -- intros j [->|Hj]%elem_of_cons; eauto.
        -- intros j r' Hj. apply Hkeep, Hkeep1, Hj.
      * set (p1 := mkPool (checker p) (<[i := Waiting]> (tasks p))
                     (sent p ++ [health_url server])) in *.
        assert (Hw : tasks p1 !! i = Some Waiting)
          by (simpl; now apply list_lookup_insert_eq).
        destruct (finish_enabled i p1 Hw) as (p2 & r & Hfinish & Htasks & Hmw);
          [eauto..|].
        assert (Htasks2 : tasks p2 = <[i := Done r]> (tasks p)).
        { rewrite Htasks. simpl. apply list_insert_insert_eq. }
        destruct (Hswap (tasks p) r eq_refl (λ _ _, eq_refl) Hk) as [Hno2 Hkeep2].
        destruct (IH p2) as (p' & Hrun & Hdone & Hkeep & Hno'); try assumption.
        { rewrite Htasks2. now rewrite length_insert. }
        { now rewrite Htasks2. }
        { rewrite Hmw. exact Hworkers. }
        exists p'.
        split; [simpl; rewrite Hstart, Hw, Hfinish; simpl;
                rewrite Hstart; simpl; rewrite Hfinish; exact Hrun|].
        split; [|split; [|assumption]].
        -- intros j [->|Hj]%elem_of_cons; [|auto].
           exists r. apply Hkeep. rewrite Htasks2.
           now apply list_lookup_insert_eq.
        -- intros j r' Hj. apply Hkeep. rewrite Htasks2. apply Hkeep2, Hj.
    + (* done already: skipped *)
      assert (Hstart : start servers ios i p = None)
        by (unfold start; now rewrite Hk).
      destruct (IH p) as (p' & Hrun & Hdone & Hkeep & Hno'); try assumption.
      exists p'. split; [simpl; rewrite Hstart; exact Hrun|].
      split; [|split; assumption].
      intros j [->|Hj]%elem_of_cons; eauto.
Qed.

(** Every pool can be brought to its end. *)
Lemma completion_completes p :
  length (tasks p) = length servers →
  length ios = length servers →
  (0 < max_workers (checker p))%nat →
  ∃ p',
    run servers ios (completion servers ios p) p = Some p' ∧
    is_Some (gather (tasks p')).
Proof.
  intros Hlen Hlen' Hworkers. unfold completion.
  set (todo := seq 0 (length (tasks p))).
  assert (Htodo : ∀ i, i ∈ todo → (i < length servers)%nat).
  { intros i Hi. apply elem_of_seq in Hi. lia. }
  destruct (finish_waiting_completes todo p) as (q & Hrun & Hnone & Hsame).
  { intros i Hi%Htodo. split; apply lookup_lt_is_Some_2; lia. }
  rewrite Hrun.
  pose proof (run_tasks_length _ _ _ Hrun) as Hlenq.
  destruct (sequential_completes todo q) as (p' & Hrun' & Hdone & _ & _);
    try assumption; try lia.
  { intros j Hj. pose proof (lookup_lt_Some _ _ _ Hj) as Hlt.
    apply (Hnone j); [|exact Hj]. apply elem_of_seq. lia. }
  { rewrite (run_max_workers _ _ _ Hrun). exact Hworkers. }
  exists p'. split; [rewrite (run_app _ _ _ _ Hrun); exact Hrun'|].
  apply gather_all_done. intros i k Hk.
  pose proof (lookup_lt_Some _ _ _ Hk) as Hlt.
  rewrite (run_tasks_length _ _ _ Hrun') in Hlt.
  destruct (Hdone i) as [r Hr]; [apply elem_of_seq; lia|].
  exists r. congruence.
Qed.


(** However far a snapshot has got, it can return: every schedule that can
    be run extends to one under which the call returns. *)
Lemma snapshot_can_always_return self schedule p :
  length ios = length servers →
  (0 < max_workers self)%nat →
  run servers ios schedule (submit_all self servers) = Some p →
  is_Some (check_all_servers_parallel self servers ios
             (schedule ++ completion servers ios p)).
Proof.
  intros Hlen Hworkers Hrun.
  destruct (completion_completes p) as (p' & Hrun' & [res Hres]).
  - rewrite (run_tasks_length _ _ _ Hrun). unfold submit_all. simpl.
    apply length_map.
  - exact Hlen.
  - rewrite (run_max_workers _ _ _ Hrun). exact Hworkers.
  - unfold check_all_servers_parallel.
    rewrite (run_app _ _ _ _ Hrun), Hrun', Hres. eauto.
Qed.

Lemma snapshot_can_return self :
  length ios = length servers →
  (0 < max_workers self)%nat →
  ∃ schedule, is_Some (check_all_servers_parallel self servers ios schedule).
Proof.
  intros Hlen Hworkers.
  exists ([] ++ completion servers ios (submit_all self servers)).
  now apply snapshot_can_always_return.
Qed.

(** What a returned call returned: a list with one result per server, each
    the result of the task at its position, or the exception of a probe
    answered by a non-object body. *)
Lemma snapshot_returned self schedule res self' sent' :
  check_all_servers_parallel self servers ios schedule = Some (res, self', sent') →
  ∃ p,
    run servers ios schedule (submit_all self servers) = Some p ∧
    self' = checker p ∧
    match res with
    | Ok results =>
        length results = length servers ∧
        ∀ i, Done ∘ Ok <$> results !! i = tasks p !! i
    | Raise e => ∃ i io, ios !! i = Some io ∧ answers_non_object io
    end.
Proof.
  unfold check_all_servers_parallel.
  destruct (run servers ios schedule (submit_all self servers)) as [p|] eqn:Hrun;
    [|discriminate].
  destruct (gather (tasks p)) as [res0|] eqn:Hg; [|discriminate].
  intros [= -> <- _]. exists p. split; [reflexivity|]. split; [reflexivity|].
  destruct res as [results|e].
  - apply gather_Ok in Hg as [Hlen Hat]. split; [|exact Hat].
    rewrite Hlen, (run_tasks_length _ _ _ Hrun). unfold submit_all. simpl.
    apply length_map.
  - apply gather_Raise in Hg as [i Hi].
    assert (HI : raises_explained ios p).
    { apply (run_invariant (raises_explained ios) step_raises_explained schedule
               (submit_all self servers)); [|exact Hrun].
      intros j e' Hj. rewrite submit_all_tasks in Hj.
      destruct (servers !! j); discriminate. }
    destruct (HI i e Hi) as (io & Hio & Hbad). eauto.
Qed.


Lemma submit_all_invariants self :
  results_have_origin servers ios self (submit_all self servers) ∧
  (cache_describes servers (cache self) →
   results_describe servers (submit_all self servers)).
Proof.
  split; [split|intros Hc; split; [exact Hc|]].
  - intros key record timestamp Hk. left. eauto.
  - intros i server r _ Hi. rewrite submit_all_tasks in Hi.
    destruct (servers !! i); discriminate.
  - intros i server r _ Hi. rewrite submit_all_tasks in Hi.
    destruct (servers !! i); discriminate.
Qed.

End Executor.

Lemma cache_describes_empty (servers : list ServerConfig.t) :
  cache_describes servers ∅.
Proof. intros key record timestamp server Hk. now rewrite lookup_empty in Hk. Qed.

Lemma NoDup_url_determines_name (servers : list ServerConfig.t) :
  NoDup (ServerConfig.url <$> servers) → url_determines_name servers.
Proof.
  intros Hnd s1 s2 [i Hi]%list_elem_of_lookup [j Hj]%list_elem_of_lookup Hurl.
  assert (i = j) as ->.
  { eapply NoDup_lookup; [exact Hnd| |].
    - rewrite list_lookup_fmap, Hi. reflexivity.
    - rewrite list_lookup_fmap, Hj. simpl. now rewrite Hurl. }
  congruence.
Qed.

(** ** Snapshots *)



(** The example of the specification: four servers, the third probe
    completes first, the second one times out; the records come back in the
    order of the list. *)
Example snapshot_third_completes_first :
  ∃ results self' sent',
    HealthChecker.check_all_servers_parallel health_checker four_servers four_ios
      third_first = Some (Ok results, self', sent') ∧
    ServerHealth.name <$> results = ["server1"; "server2"; "server3"; "server4"] ∧
    ServerHealth.health <$> results = [HEALTHY; ERROR; HEALTHY; UNHEALTHY].
Proof. do 3 eexists. split; [vm_compute; reflexivity|]. split; reflexivity. Qed.


(** ** Failures as data *)



Example best_server_despite_timeout :
  ∃ r lb' sent',
    LoadBalancer.get_best_server (LoadBalancer.mk four_servers health_checker)
      four_ios third_first = Some (Ok (Some r), lb', sent') ∧
    ServerHealth.name r = "server1" ∧ ServerHealth.score r = 90.
Proof. do 3 eexists. split; [vm_compute; reflexivity|]. split; reflexivity. Qed.

(** The exception that does cross the boundary: one upstream answers 200
    with a JSON array, and the snapshot of all four servers is lost. *)
Example snapshot_lost_to_non_object_body :
  ∃ e self' sent',
    HealthChecker.check_all_servers_parallel health_checker four_servers
      [object_io 1000 40 (Some 90); array_io 1000; object_io 1000 250 None;
       status_io 1000 404]
      third_first = Some (Raise e, self', sent') ∧
    e = AttributeError "object has no attribute 'get'".
Proof. do 3 eexists. split; [vm_compute; reflexivity|reflexivity]. Qed.

(** ** Concrete instances *)

Lemma check_server_cache_freshness_witness :
  HealthChecker.check_server
    (warm_checker (ServerConfig.make "a" "http://a") (sample_record "a" UNHEALTHY 0))
    (ServerConfig.make "a" "http://a") (failed_io 105 "Read timed out")
  = (Ok (sample_record "a" UNHEALTHY 0),
     warm_checker (ServerConfig.make "a" "http://a") (sample_record "a" UNHEALTHY 0),
     []).
Proof.
  apply (proj1 (check_server_cache_freshness
                  (warm_checker (ServerConfig.make "a" "http://a")
                     (sample_record "a" UNHEALTHY 0))
                  (ServerConfig.make "a" "http://a")
                  (failed_io 105 "Read timed out"))
           (sample_record "a" UNHEALTHY 0) 100).
  - reflexivity.
  - reflexivity.
Defined.

(** A failed probe is cached: nine seconds later the error record is served
    again and no request is sent, although the upstream may be back. *)
Lemma probe_outcome_cached_until_ttl_witness :
  ∃ record,
    ServerHealth.health record = ERROR ∧
    HealthChecker.check_server
      (HealthChecker.set_cache health_checker "http://a" (record, 1003))
      (ServerConfig.make "a" "http://a") (object_io 1012 40 (Some 90))
    = (Ok record, HealthChecker.set_cache health_checker "http://a" (record, 1003), []).
Proof.
  eexists. split; [|
    apply (probe_outcome_cached_until_ttl health_checker
             (ServerConfig.make "a" "http://a") (failed_io 1000 "Read timed out")
             _ eq_refl eq_refl);
    reflexivity].
  reflexivity.
Defined.

Lemma ok_response_body_handling_witness :
  ∃ r,
    HealthChecker.check_server health_checker (ServerConfig.make "a" "http://a")
      (garbled_io 1000) =
      (Ok r, HealthChecker.set_cache health_checker "http://a" (r, 1001),
       ["http://a/health"]) ∧
    ServerHealth.health r = UNHEALTHY ∧
    ServerHealth.score r = 0 ∧
    ServerHealth.error r = Some "Invalid health response" ∧
    ServerHealth.response_time r = Some (py_round2 20) ∧
    ServerHealth.status_code r = Some 200%Z.
Proof.
  exact (proj1 (ok_response_body_handling health_checker
                  (ServerConfig.make "a" "http://a") (garbled_io 1000) eq_refl)
           "Expecting value" eq_refl).
Defined.

(** C2, as stated, fails for a body that lacks the score: a 200 response
    with the JSON object [{"status": "ok"}] after 250 ms gives a healthy
    record with score 70 and no error. *)
Lemma missing_score_is_healthy :
  ∃ r self',
    HealthChecker.check_server health_checker (ServerConfig.make "a" "http://a")
      (object_io 1000 250 None) = (Ok r, self', ["http://a/health"]) ∧
    ServerHealth.health r = HEALTHY ∧
    ServerHealth.health r ≠ UNHEALTHY ∧
    ServerHealth.score r == 70 ∧
    ¬ ServerHealth.score r == 0 ∧
    ServerHealth.error r = None.
Proof.
  do 2 eexists. split; [vm_compute; reflexivity|].
  repeat split; try discriminate.
Qed.

(** The first version of the service reads both members: a body that lacks
    one, or is not JSON, gives an ["error"] record without response time. *)
Lemma app_bad_body_is_error (server : ServerConfig.t) (io : ProbeIO) (body : Body) :
  outcome io = Response 200 body →
  body ≠ JsonObject (status_member_of body) (score_member_of body) ∨
  status_member_of body = None ∨ score_member_of body = None →
  App.health (App.check_server_health server io) = "error" ∧
  App.response_time (App.check_server_health server io) = None ∧
  App.score (App.check_server_health server io) = 0 ∧
  is_Some (App.error (App.check_server_health server io)).
Proof.
  intros Hout Hbad. unfold App.check_server_health, session_get. rewrite Hout.
  destruct body as [msg|[status|] [score|]|]; simpl in *; eauto;
    destruct Hbad as [Hb|[Hb|Hb]]; congruence.
Qed.

(** C3, as stated, fails: a server list with a repeated name and an empty
    URL, and a timeout of zero, are accepted. *)
Lemma initialize_accepts_broken_configuration :
  ¬ NoDup (ServerConfig.name <$> broken_servers) ∧
  (∃ server, server ∈ broken_servers ∧ ServerConfig.url server = "") ∧
  (0 <= 0)%Z ∧
  is_ok (initialize broken_servers 0 2 10) = true ∧
  ∃ lb, initialize broken_servers 0 2 10 = Ok lb ∧
        LoadBalancer.servers lb = broken_servers ∧
        HealthChecker.timeout (LoadBalancer.health_checker lb) = 0%Z.
Proof.
  split; [|split; [|split; [|split]]].
  - intros Hnd. apply NoDup_cons in Hnd as [Hnotin _].
    apply Hnotin. simpl. apply list_elem_of_here.
  - eexists. split; [apply list_elem_of_here|reflexivity].
  - lia.
  - reflexivity.
  - eexists. repeat split.
Qed.

(** The configuration shipped with the service is sound all the same. *)
Lemma SERVERS_well_formed :
  NoDup (ServerConfig.name <$> SERVERS) ∧
  NoDup (ServerConfig.url <$> SERVERS) ∧
  Forall (λ server, ServerConfig.name server ≠ "" ∧ ServerConfig.url server ≠ "") SERVERS ∧
  HealthChecker.__init__ 3 2 10 = Ok health_checker ∧
  (0 < HealthChecker.timeout health_checker)%Z.
Proof.
  split; [|split; [|split; [|split]]].
  - apply NoDup_ListNoDup. vm_compute. repeat constructor; simpl; intuition discriminate.
  - apply NoDup_ListNoDup. vm_compute. repeat constructor; simpl; intuition discriminate.
  - repeat constructor; discriminate.
  - reflexivity.
  - reflexivity.
Qed.

(** * Further properties of the code *)

(** ** Scoring *)

(** X1. Two response times on the same side of 500 ms are scored in order:
    the slower one never scores higher. *)
Theorem calculate_score_monotone_same_side (ms1 ms2 : Q) :
  ms1 <= ms2 → ms2 < 500 ∨ 500 <= ms1 →
  _calculate_score ms2 <= _calculate_score ms1.
Proof.
  intros Hle [Hlow|Hhigh].
  - now apply calculate_score_monotone_below_500.
  - now apply calculate_score_monotone_from_500.
Qed.

Lemma calculate_score_monotone_same_side_witness :
  _calculate_score 499 <= _calculate_score 100 ∧
  _calculate_score 2000 <= _calculate_score 500.
Proof.
  split.
  - apply (calculate_score_monotone_same_side 100 499); [discriminate|].
    left. reflexivity.
  - apply (calculate_score_monotone_same_side 500 2000); [discriminate|].
    right. discriminate.
Defined.


(** ** One health check, continued *)

(** X3. The status of the record a probe builds is decided by the answer
    alone: [ERROR] exactly for a transport failure, [HEALTHY] exactly for a
    200 response with a JSON object, [UNHEALTHY] exactly for another status
    code or a 200 response that is not JSON. *)
Theorem probe_status_by_outcome (server : ServerConfig.t) (io : ProbeIO)
    (record : ServerHealth.t) :
  HealthChecker.probe server io = Ok record →
  (ServerHealth.health record = ERROR ↔ ∃ msg, outcome io = TransportFailure msg) ∧
  (ServerHealth.health record = HEALTHY ↔
     ∃ status score, outcome io = Response 200 (JsonObject status score)) ∧
  (ServerHealth.health record = UNHEALTHY ↔
     ∃ code body, outcome io = Response code body ∧
                  (code ≠ 200%Z ∨ ∃ msg, body = Undecodable msg)).
Proof.
  unfold HealthChecker.probe, session_get, HealthChecker.on_200, response_json,
    get_score.
  destruct (outcome io) as [msg|code body]; simpl.
  - intros [= <-]. simpl. repeat split; try discriminate; eauto.
    + intros (? & ? & [=]).
    + intros (? & ? & [=] & _).
  - destruct (decide (code = 200%Z)) as [->|Hne]; simpl.
    + destruct body as [msg|status [sc|]|]; simpl; intros [= <-]; simpl;
        repeat split; try discriminate; eauto 6;
        try (intros (? & [=])); try (intros (? & ? & [=]));
        try (intros (? & ? & [= <- <-] & [Hc|[? [=]]]); congruence).
    + intros [= <-]. simpl. repeat split; try discriminate; eauto 6.
      * intros (? & [=]).
      * intros (? & ? & [=]). congruence.
Qed.

Lemma probe_status_by_outcome_witness :
  ∃ record,
    HealthChecker.probe (ServerConfig.make "a" "http://a") (status_io 1000 404)
      = Ok record ∧
    ServerHealth.health record = UNHEALTHY.
Proof.
  eexists. split; [reflexivity|].
  apply (proj2 (proj2 (probe_status_by_outcome (ServerConfig.make "a" "http://a")
                         (status_io 1000 404) _ eq_refl))).
  exists 404%Z, (Undecodable "<html>"). split; [reflexivity|]. left. discriminate.
Defined.

(** X4. A response with a status code other than 200 gives, whatever its
    body, an unhealthy record with score 0, that status code, the measured
    response time and no error text; the record is cached. *)
Theorem non_200_is_unhealthy (self : HealthChecker.t) (server : ServerConfig.t)
    (io : ProbeIO) (code : Z) (body : Body) :
  outcome io = Response code body → code ≠ 200%Z →
  HealthChecker._is_cache_valid self (ServerConfig.url server) (now io) = false →
  ∃ r,
    HealthChecker.check_server self server io =
      (Ok r,
       HealthChecker.set_cache self (ServerConfig.url server) (r, stored_at io),
       [HealthChecker.health_url server]) ∧
    ServerHealth.health r = UNHEALTHY ∧
    ServerHealth.score r = 0 ∧
    ServerHealth.status_code r = Some code ∧
    ServerHealth.response_time r = Some (py_round2 (elapsed_ms io)) ∧
    ServerHealth.error r = None.
Proof.
  intros Hout Hne Hmiss. rewrite check_server_miss by assumption.
  unfold HealthChecker.probe, session_get. rewrite Hout. simpl.
  rewrite decide_False by assumption. simpl. eexists. repeat split.
Qed.

Lemma non_200_is_unhealthy_witness :
  ∃ r,
    HealthChecker.check_server health_checker (ServerConfig.make "a" "http://a")
      (mkIO 1000 (Response 302 JsonOther) 20 1001 "t") =
      (Ok r, HealthChecker.set_cache health_checker "http://a" (r, 1001),
       ["http://a/health"]) ∧
    ServerHealth.health r = UNHEALTHY ∧
    ServerHealth.score r = 0 ∧
    ServerHealth.status_code r = Some 302%Z ∧
    ServerHealth.response_time r = Some (py_round2 20) ∧
    ServerHealth.error r = None.
Proof.
  apply (non_200_is_unhealthy health_checker (ServerConfig.make "a" "http://a")
           (mkIO 1000 (Response 302 JsonOther) 20 1001 "t") 302 JsonOther).
  - reflexivity.
  - discriminate.
  - reflexivity.
Defined.


(** X6. Probes and health checks keep the records consistent: a record
    that is not healthy scores 0, exactly the error records lack a response
    time and a status code, and a healthy record has status code 200 and no
    error text.  This holds for the record a check returns and for every
    entry of the cache afterwards, when it held for the cache before. *)
Theorem check_server_keeps_records_consistent (self : HealthChecker.t)
    (server : ServerConfig.t) (io : ProbeIO) :
  cache_consistent (HealthChecker.cache self) →
  (∀ r, (HealthChecker.check_server self server io).1.1 = Ok r →
        record_consistent r) ∧
  cache_consistent (HealthChecker.cache (HealthChecker.check_server self server io).1.2).
Proof.
  intros Hcache.
  assert (Hprobe : ∀ r, HealthChecker.probe server io = Ok r → record_consistent r).
  { unfold HealthChecker.probe, session_get, HealthChecker.on_200, response_json,
      get_score, record_consistent.
    destruct (outcome io) as [msg|code body]; simpl.
    - intros r [= <-]. simpl. repeat split; auto; discriminate.
    - destruct (decide (code = 200%Z)) as [->|Hne]; simpl.
      + destruct body as [msg|status [sc|]|]; simpl; intros r [= <-]; simpl;
          repeat split; auto; try discriminate; try contradiction.
      + intros r [= <-]. simpl. repeat split; auto; discriminate. }
  unfold HealthChecker.check_server.
  destruct (HealthChecker._is_cache_valid self (ServerConfig.url server) (now io))
    eqn:Hv.
  - apply is_cache_valid_true in Hv as (record & timestamp & Hc & _).
    rewrite Hc. simpl. split; [|exact Hcache].
    intros r [= <-]. eapply Hcache, Hc.
  - destruct (HealthChecker.probe server io) as [h|e] eqn:Hp; simpl.
    + split; [intros r [= <-]; auto|].
      intros key record timestamp Hk.
      apply lookup_insert_Some in Hk as [[_ [= <- _]]|[_ Hk]]; [auto|].
      eapply Hcache, Hk.
    + split; [discriminate|exact Hcache].
Qed.

Lemma check_server_keeps_records_consistent_witness :
  (∀ r, (HealthChecker.check_server health_checker
           (ServerConfig.make "a" "http://a") (garbled_io 1000)).1.1 = Ok r →
        record_consistent r) ∧
  cache_consistent
    (HealthChecker.cache
       (HealthChecker.check_server health_checker
          (ServerConfig.make "a" "http://a") (garbled_io 1000)).1.2).
Proof.
  apply (check_server_keeps_records_consistent health_checker
           (ServerConfig.make "a" "http://a") (garbled_io 1000)).
  intros key record timestamp Hk. simpl in Hk.
  rewrite lookup_empty in Hk. discriminate Hk.
Defined.

(** X7. A health check writes at most one cache entry, the one under the
    URL of the server checked: every other entry, the timeout, the TTL,
    the session and the worker limit are as before, and no entry is
    removed. *)
Theorem check_server_frame (self : HealthChecker.t) (server : ServerConfig.t)
    (io : ProbeIO) :
  (∀ key, key ≠ ServerConfig.url server →
     HealthChecker.cache (HealthChecker.check_server self server io).1.2 !! key =
     HealthChecker.cache self !! key) ∧
  (∀ key, is_Some (HealthChecker.cache self !! key) →
     is_Some (HealthChecker.cache (HealthChecker.check_server self server io).1.2
                !! key)) ∧
  HealthChecker.timeout (HealthChecker.check_server self server io).1.2 =
    HealthChecker.timeout self ∧
  HealthChecker.cache_ttl (HealthChecker.check_server self server io).1.2 =
    HealthChecker.cache_ttl self ∧
  HealthChecker.session (HealthChecker.check_server self server io).1.2 =
    HealthChecker.session self ∧
  HealthChecker.max_workers (HealthChecker.check_server self server io).1.2 =
    HealthChecker.max_workers self.
Proof.
  unfold HealthChecker.check_server.
  destruct (HealthChecker._is_cache_valid self (ServerConfig.url server) (now io)).
  - destruct (HealthChecker.cache self !! ServerConfig.url server); simpl; auto 10.
  - destruct (HealthChecker.probe server io) as [h|e]; simpl; [|auto 10].
    repeat split; try reflexivity.
    + intros key Hne. now apply lookup_insert_ne.
    + intros key Hk. rewrite lookup_insert. case_decide; [eauto|exact Hk].
Qed.

(** X8. With a TTL of zero or less the cache is never used, as long as the
    clock does not run backwards: an entry stored at or before the time of
    the check is not valid, so the check sends a request. *)
Theorem non_positive_ttl_disables_cache (self : HealthChecker.t)
    (server : ServerConfig.t) (io : ProbeIO) :
  (HealthChecker.cache_ttl self <= 0)%Z →
  (∀ record timestamp,
     HealthChecker.cache self !! ServerConfig.url server = Some (record, timestamp) →
     timestamp <= now io) →
  HealthChecker._is_cache_valid self (ServerConfig.url server) (now io) = false ∧
  (HealthChecker.check_server self server io).2 = [HealthChecker.health_url server].
Proof.
  intros Httl Hclock.
  assert (Hv : HealthChecker._is_cache_valid self (ServerConfig.url server) (now io)
               = false).
  { apply is_cache_valid_false.
    destruct (HealthChecker.cache self !! ServerConfig.url server)
      as [[record timestamp]|] eqn:Hc; [right|left; reflexivity].
    exists record, timestamp. split; [reflexivity|].
    specialize (Hclock record timestamp eq_refl).
    assert (inject_Z (HealthChecker.cache_ttl self) <= 0).
    { change 0 with (inject_Z 0). now rewrite <- Zle_Qle. }
    lra. }
  split; [exact Hv|]. rewrite check_server_miss by assumption.
  destruct (HealthChecker.probe server io); reflexivity.
Qed.

Lemma non_positive_ttl_disables_cache_witness :
  HealthChecker._is_cache_valid
    (HealthChecker.mk 3 0 {[ "http://a" := (sample_record "a" HEALTHY 90, 100) ]}
       (HealthChecker._create_session 2) 10)
    "http://a" 100 = false ∧
  (HealthChecker.check_server
     (HealthChecker.mk 3 0 {[ "http://a" := (sample_record "a" HEALTHY 90, 100) ]}
        (HealthChecker._create_session 2) 10)
     (ServerConfig.make "a" "http://a") (object_io 100 40 None)).2
  = ["http://a/health"].
Proof.
  apply (non_positive_ttl_disables_cache
           (HealthChecker.mk 3 0
              {[ "http://a" := (sample_record "a" HEALTHY 90, 100) ]}
              (HealthChecker._create_session 2) 10)
           (ServerConfig.make "a" "http://a") (object_io 100 40 None)).
  - simpl. lia.
  - intros record timestamp Hk. simpl in Hk.
    apply lookup_singleton_Some in Hk as [_ [= _ <-]]. discriminate.
Defined.

(** ** Selection, continued *)

Section SelectionMore.
Context {A : Type} (P : A → Prop) `{!∀ x, Decision (P x)} (key : A → Q).





End SelectionMore.




(** Reversed, the snapshot gives the other one of the two servers that tie. *)
Example best_of_reversed_ties :
  ServerHealth.name <$> LoadBalancer.best tie_snapshot = Some "s2" ∧
  ServerHealth.name <$> LoadBalancer.best (reverse tie_snapshot) = Some "s5".
Proof. split; reflexivity. Qed.

(** ** The executor, continued *)

Section ExecutorMore.
Import HealthChecker.
Variables (servers : list ServerConfig.t) (ios : list ProbeIO).




(** When every server has a fresh entry, the pool only reads the cache. *)
Lemma run_all_fresh self schedule p :
  (∀ i server io, servers !! i = Some server → ios !! i = Some io →
     _is_cache_valid self (ServerConfig.url server) (now io) = true) →
  run servers ios schedule (submit_all self servers) = Some p →
  checker p = self ∧ sent p = [] ∧
  ∀ i k, tasks p !! i = Some k →
    k = Queued ∨
    ∃ server record timestamp,
      servers !! i = Some server ∧
      cache self !! ServerConfig.url server = Some (record, timestamp) ∧
      k = Done (Ok record).
Proof.
  intros Hfresh Hrun.
  apply (run_invariant servers ios
           (λ q, checker q = self ∧ sent q = [] ∧
                 ∀ i k, tasks q !! i = Some k →
                   k = Queued ∨
                   ∃ server record timestamp,
                     servers !! i = Some server ∧
                     cache self !! ServerConfig.url server = Some (record, timestamp) ∧
                     k = Done (Ok record)))
    with (schedule := schedule) (p := submit_all self servers); [| |exact Hrun].
  - intros ev q q' (Hc & Hsent & Htasks) Hstep.
    destruct ev as [i|i]; simpl in Hstep.
    + apply start_inv in Hstep
        as (server & io & Hq & Hs & Hio & _ & [(r & t & Hr & _ & ->)|[Hmiss ->]]).
      * simpl. repeat split; try assumption.
        intros j k Hj.
        apply list_lookup_insert_Some in Hj as [(<- & <- & _)|[_ Hj]]; [|eauto].
        right. exists server, r, t. rewrite <- Hc. auto.
      * rewrite Hc, (Hfresh i server io Hs Hio) in Hmiss. discriminate.
    + apply finish_inv in Hstep as (server & io & Hw & _).
      destruct (Htasks i Waiting Hw) as [[=]|(? & ? & ? & _ & _ & [=])].
  - repeat split. intros i k Hk. left.
    rewrite submit_all_tasks in Hk. destruct (servers !! i); now inversion Hk.
Qed.

(** With distinct URLs, the record a task returned is the one the cache
    holds for its server. *)
Lemma run_results_cached self schedule p :
  NoDup (ServerConfig.url <$> servers) →
  run servers ios schedule (submit_all self servers) = Some p →
  ∀ i server r, servers !! i = Some server →
    tasks p !! i = Some (Done (Ok r)) →
    ∃ timestamp, cache (checker p) !! ServerConfig.url server = Some (r, timestamp).
Proof.
  intros Hnd Hrun.
  apply (run_invariant servers ios
           (λ q, ∀ i server r, servers !! i = Some server →
                   tasks q !! i = Some (Done (Ok r)) →
                   ∃ timestamp,
                     cache (checker q) !! ServerConfig.url server = Some (r, timestamp)))
    with (schedule := schedule) (p := submit_all self servers); [| |exact Hrun].
  - intros ev q q' HI Hstep. destruct ev as [i|i]; simpl in Hstep.
    + apply start_inv in Hstep
        as (server & io & Hq & Hs & Hio & _ & [(r & t & Hr & _ & ->)|[Hmiss ->]]);
        simpl; intros j server' r' Hs' Hj;
        apply list_lookup_insert_Some in Hj as [(<- & [=] & _)|[_ Hj]]; eauto.
      subst r'. assert (server' = server) as -> by congruence. eauto.
    + apply finish_inv in Hstep
        as (server & io & Hw & Hs & _ & [(h & _ & ->)|(e & _ & ->)]);
        simpl; intros j server' r' Hs' Hj;
        apply list_lookup_insert_Some in Hj as [(<- & [=] & _)|[Hne Hj]]; eauto.
      * subst r'. assert (server' = server) as -> by congruence.
        exists (stored_at io). apply lookup_insert_eq.
      * rewrite lookup_insert_ne; [eauto|].
        intros Hurl. apply Hne.
        eapply NoDup_lookup; [exact Hnd| |].
        -- rewrite list_lookup_fmap, Hs. reflexivity.
        -- rewrite list_lookup_fmap, Hs'. simpl. now rewrite Hurl.
  - intros i server r _ Hi. rewrite submit_all_tasks in Hi.
    destruct (servers !! i); discriminate.
Qed.

End ExecutorMore.





(** A snapshot over fresh entries: what it returns and what it leaves. *)
Lemma snapshot_all_fresh (self : HealthChecker.t)
    (servers : list ServerConfig.t) (ios : list ProbeIO)
    (schedule : list HealthChecker.Event) (res : Result (list ServerHealth.t))
    (self' : HealthChecker.t) (sent' : list string) :
  (∀ i server io, servers !! i = Some server → ios !! i = Some io →
     HealthChecker._is_cache_valid self (ServerConfig.url server) (now io) = true) →
  HealthChecker.check_all_servers_parallel self servers ios schedule
    = Some (res, self', sent') →
  self' = self ∧ sent' = [] ∧
  ∃ results,
    res = Ok results ∧ length results = length servers ∧
    ∀ i server, servers !! i = Some server →
      ∃ r timestamp,
        results !! i = Some r ∧
        HealthChecker.cache self !! ServerConfig.url server = Some (r, timestamp).
Proof.
  intros Hfresh Hcall.
  pose proof Hcall as Hcall'.
  apply snapshot_returned in Hcall' as (p & Hrun & -> & Hres).
  destruct (run_all_fresh servers ios self schedule p Hfresh Hrun)
    as (Hc & Hsent & Htasks).
  unfold HealthChecker.check_all_servers_parallel in Hcall.
  rewrite Hrun in Hcall.
  destruct (HealthChecker.gather (HealthChecker.tasks p)) eqn:Hg; [|discriminate].
  injection Hcall as -> <-.
  split; [exact Hc|]. split; [exact Hsent|].
  destruct res as [results|e].
  - destruct Hres as [Hn Hat]. exists results. repeat split; [assumption|].
    intros i server Hs.
    destruct (lookup_lt_is_Some_2 results i) as [r Hr].
    { rewrite Hn. eapply lookup_lt_Some, Hs. }
    specialize (Hat i). rewrite Hr in Hat. simpl in Hat.
    destruct (Htasks i _ (eq_sym Hat)) as [[=]|(server' & record & t & Hs' & Hc' & [= ->])].
    assert (server' = server) as -> by congruence. eauto.
  - apply gather_Raise in Hg as [i Hi].
    destruct (Htasks i _ Hi) as [[=]|(? & ? & ? & _ & _ & [=])].
Qed.

(** X13. A snapshot of servers that all have a fresh cache entry sends no
    request and leaves the checker as it was; it returns the cached records,
    in the order of the list, under every schedule. *)
Theorem fresh_snapshot_reads_cache_only (self : HealthChecker.t)
    (servers : list ServerConfig.t) (ios : list ProbeIO)
    (schedule : list HealthChecker.Event) (res : Result (list ServerHealth.t))
    (self' : HealthChecker.t) (sent' : list string) :
  (∀ i server io, servers !! i = Some server → ios !! i = Some io →
     HealthChecker._is_cache_valid self (ServerConfig.url server) (now io) = true) →
  HealthChecker.check_all_servers_parallel self servers ios schedule
    = Some (res, self', sent') →
  self' = self ∧ sent' = [] ∧
  ∃ results,
    res = Ok results ∧ length results = length servers ∧
    ∀ i server, servers !! i = Some server →
      ∃ r timestamp,
        results !! i = Some r ∧
        HealthChecker.cache self !! ServerConfig.url server = Some (r, timestamp).
Proof. apply snapshot_all_fresh. Qed.

Lemma fresh_snapshot_reads_cache_only_witness :
  ∃ res self' sent',
    HealthChecker.check_all_servers_parallel warm_checker2 two_servers
      [failed_io 105 "Read timed out"; failed_io 106 "Read timed out"]
      [HealthChecker.Start 1; HealthChecker.Start 0] = Some (res, self', sent') ∧
    self' = warm_checker2 ∧ sent' = [] ∧
    ∃ results,
      res = Ok results ∧ length results = length two_servers ∧
      ∀ i server, two_servers !! i = Some server →
        ∃ r timestamp,
          results !! i = Some r ∧
          HealthChecker.cache warm_checker2 !! ServerConfig.url server
            = Some (r, timestamp).
Proof.
  do 3 eexists. split; [vm_compute; reflexivity|].
  apply (fresh_snapshot_reads_cache_only warm_checker2 two_servers
           [failed_io 105 "Read timed out"; failed_io 106 "Read timed out"]
           [HealthChecker.Start 1; HealthChecker.Start 0]).
  - intros i server io Hs Hio.
    destruct i as [|[|i]]; simpl in Hs, Hio; try discriminate;
      injection Hs as <-; injection Hio as <-; reflexivity.
  - vm_compute. reflexivity.
Defined.

(** X14. When the servers of the list have distinct URLs, every record a
    snapshot returns is the record the cache holds afterwards for its
    server. *)
Theorem snapshot_results_are_cached (self : HealthChecker.t)
    (servers : list ServerConfig.t) (ios : list ProbeIO)
    (schedule : list HealthChecker.Event) (results : list ServerHealth.t)
    (self' : HealthChecker.t) (sent' : list string) :
  NoDup (ServerConfig.url <$> servers) →
  HealthChecker.check_all_servers_parallel self servers ios schedule
    = Some (Ok results, self', sent') →
  ∀ i server r, servers !! i = Some server → results !! i = Some r →
    ∃ timestamp,
      HealthChecker.cache self' !! ServerConfig.url server = Some (r, timestamp).
Proof.
  intros Hnd Hcall i server r Hs Hr.
  apply snapshot_returned in Hcall as (p & Hrun & -> & _ & Hat).
  apply (run_results_cached servers ios self schedule p Hnd Hrun i server r Hs).
  rewrite <- Hat, Hr. reflexivity.
Qed.

Lemma snapshot_results_are_cached_witness :
  ∃ results self' sent',
    HealthChecker.check_all_servers_parallel health_checker four_servers four_ios
      third_first = Some (Ok results, self', sent') ∧
    ∀ i server r, four_servers !! i = Some server → results !! i = Some r →
      ∃ timestamp,
        HealthChecker.cache self' !! ServerConfig.url server = Some (r, timestamp).
Proof.
  do 3 eexists. split; [vm_compute; reflexivity|].
  eapply (snapshot_results_are_cached health_checker four_servers four_ios third_first).
  - apply NoDup_ListNoDup. vm_compute.
    repeat constructor; simpl; intuition discriminate.
  - vm_compute. reflexivity.
Defined.

(** A second snapshot over entries that are still fresh. *)
Lemma snapshot_repeated (self : HealthChecker.t)
    (servers : list ServerConfig.t) (ios1 ios2 : list ProbeIO)
    (schedule1 schedule2 : list HealthChecker.Event)
    (results : list ServerHealth.t) (res2 : Result (list ServerHealth.t))
    (self1 self2 : HealthChecker.t) (sent1 sent2 : list string) :
  NoDup (ServerConfig.url <$> servers) →
  HealthChecker.check_all_servers_parallel self servers ios1 schedule1
    = Some (Ok results, self1, sent1) →
  (∀ i server io, servers !! i = Some server → ios2 !! i = Some io →
     HealthChecker._is_cache_valid self1 (ServerConfig.url server) (now io) = true) →
  HealthChecker.check_all_servers_parallel self1 servers ios2 schedule2
    = Some (res2, self2, sent2) →
  res2 = Ok results ∧ self2 = self1 ∧ sent2 = [].
Proof.
  intros Hnd Hfirst Hfresh Hsecond.
  destruct (snapshot_all_fresh self1 servers ios2 schedule2 res2 self2 sent2
              Hfresh Hsecond) as (-> & -> & results2 & -> & Hn2 & Hat2).
  split; [|auto]. f_equal.
  pose proof Hfirst as Hfirst'.
  apply snapshot_returned in Hfirst' as (p & Hrun & -> & Hn1 & Hat1).
  apply list_eq. intros i.
  destruct (servers !! i) as [server|] eqn:Hs.
  - destruct (Hat2 i server Hs) as (r2 & t2 & Hr2 & Hc2).
    destruct (lookup_lt_is_Some_2 results i) as [r1 Hr1].
    { rewrite Hn1. eapply lookup_lt_Some, Hs. }
    destruct (run_results_cached servers ios1 self schedule1 p Hnd Hrun i server r1 Hs)
      as [t1 Hc1].
    { rewrite <- Hat1, Hr1. reflexivity. }
    rewrite Hr1, Hr2. congruence.
  - apply lookup_ge_None in Hs.
    rewrite !(proj2 (lookup_ge_None _ _)) by lia. reflexivity.
Qed.

(** X15. A snapshot repeated while the entries are fresh returns the same
    records: after a snapshot of servers with distinct URLs has returned a
    list, a second snapshot in which every check finds its server's entry
    still valid returns that list again, sends no request and changes
    nothing. *)
Theorem repeated_snapshot_returns_same_records (self : HealthChecker.t)
    (servers : list ServerConfig.t) (ios1 ios2 : list ProbeIO)
    (schedule1 schedule2 : list HealthChecker.Event)
    (results : list ServerHealth.t) (res2 : Result (list ServerHealth.t))
    (self1 self2 : HealthChecker.t) (sent1 sent2 : list string) :
  NoDup (ServerConfig.url <$> servers) →
  HealthChecker.check_all_servers_parallel self servers ios1 schedule1
    = Some (Ok results, self1, sent1) →
  (∀ i server io, servers !! i = Some server → ios2 !! i = Some io →
     HealthChecker._is_cache_valid self1 (ServerConfig.url server) (now io) = true) →
  HealthChecker.check_all_servers_parallel self1 servers ios2 schedule2
    = Some (res2, self2, sent2) →
  res2 = Ok results ∧ self2 = self1 ∧ sent2 = [].
Proof. apply snapshot_repeated. Qed.

Lemma repeated_snapshot_returns_same_records_witness :
  ∃ results self1 sent1,
    HealthChecker.check_all_servers_parallel health_checker four_servers four_ios
      third_first = Some (Ok results, self1, sent1) ∧
    ∃ res2 self2 sent2,
      HealthChecker.check_all_servers_parallel self1 four_servers
        [array_io 1005; array_io 1005; array_io 1005; array_io 1005]
        [HealthChecker.Start 3; HealthChecker.Start 2; HealthChecker.Start 1;
         HealthChecker.Start 0] = Some (res2, self2, sent2) ∧
      res2 = Ok results ∧ self2 = self1 ∧ sent2 = [].
Proof.
  do 3 eexists. split; [vm_compute; reflexivity|].
  do 3 eexists. split; [vm_compute; reflexivity|].
  eapply (repeated_snapshot_returns_same_records health_checker four_servers four_ios
            [array_io 1005; array_io 1005; array_io 1005; array_io 1005]
            third_first
            [HealthChecker.Start 3; HealthChecker.Start 2; HealthChecker.Start 1;
             HealthChecker.Start 0]).
  - apply NoDup_ListNoDup. vm_compute.
    repeat constructor; simpl; intuition discriminate.
  - vm_compute. reflexivity.
  - intros i server io Hs Hio.
    destruct i as [|[|[|[|i]]]]; simpl in Hs, Hio; try discriminate;
      injection Hs as <-; injection Hio as <-; vm_compute; reflexivity.
  - vm_compute. reflexivity.
Defined.

(** X16. The best server is one of the list: when servers with the same
    URL have the same name and the cache entries describe servers of the
    list, the record [get_best_server] returns is healthy and carries the
    name and the URL of a server of the load balancer's list. *)
Theorem best_server_is_registry_member (lb : LoadBalancer.t) (ios : list ProbeIO)
    (schedule : list HealthChecker.Event) (r : ServerHealth.t)
    (lb' : LoadBalancer.t) (sent' : list string) :
  url_determines_name (LoadBalancer.servers lb) →
  cache_describes (LoadBalancer.servers lb)
    (HealthChecker.cache (LoadBalancer.health_checker lb)) →
  LoadBalancer.get_best_server lb ios schedule = Some (Ok (Some r), lb', sent') →
  ServerHealth.health r = HEALTHY ∧
  ∃ server, server ∈ LoadBalancer.servers lb ∧ describes server r.
Proof.
  intros Hurl Hcache.
  unfold LoadBalancer.get_best_server, LoadBalancer.get_all_server_health.
  destruct (HealthChecker.check_all_servers_parallel _ _ _ _)
    as [[[res hc] snt]|] eqn:Hcall; [|discriminate].
  destruct res as [results|e]; [|discriminate].
  intros [= Hbest _ _].
  rewrite best_max_of_filtered in Hbest.
  apply max_of_filtered_Some in Hbest as (Hin & Hh & _).
  split; [exact Hh|].
  apply snapshot_returned in Hcall as (p & Hrun & _ & Hn & Hat).
  assert (HI : results_describe (LoadBalancer.servers lb) p).
  { apply (run_invariant (LoadBalancer.servers lb) ios
             (results_describe (LoadBalancer.servers lb))
             (λ ev q q', step_results_describe (LoadBalancer.servers lb) ios ev q q' Hurl)
             schedule
             (HealthChecker.submit_all (LoadBalancer.health_checker lb)
                (LoadBalancer.servers lb))); [|exact Hrun].
    now apply submit_all_invariants. }
  apply list_elem_of_lookup in Hin as [i Hi].
  destruct (lookup_lt_is_Some_2 (LoadBalancer.servers lb) i) as [server Hs].
  { rewrite <- Hn. eapply lookup_lt_Some, Hi. }
  exists server. split; [eapply list_elem_of_lookup_2, Hs|].
  apply (proj2 HI i server r Hs). rewrite <- Hat, Hi. reflexivity.
Qed.

Lemma best_server_is_registry_member_witness :
  ∃ r lb' sent',
    LoadBalancer.get_best_server (LoadBalancer.mk four_servers health_checker)
      four_ios third_first = Some (Ok (Some r), lb', sent') ∧
    ServerHealth.health r = HEALTHY ∧
    ∃ server, server ∈ four_servers ∧ describes server r.
Proof.
  do 3 eexists. split; [vm_compute; reflexivity|].
  eapply (best_server_is_registry_member (LoadBalancer.mk four_servers health_checker)
            four_ios third_first).
  - apply NoDup_url_determines_name. vm_compute. apply NoDup_ListNoDup.
    repeat constructor; simpl; intuition discriminate.
  - apply cache_describes_empty.
  - vm_compute. reflexivity.
Defined.



(** ** The HTTP layer *)

Lemma HealthStatus_value_inj (h1 h2 : HealthStatus) :
  HealthStatus_value h1 = HealthStatus_value h2 → h1 = h2.
Proof. destruct h1, h2; simpl; intros H; first [reflexivity | discriminate H]. Qed.

(** X18. The dictionary made of a record loses nothing: two records with
    the same dictionary are the same record. *)
Theorem to_dict_injective (r1 r2 : ServerHealth.t) :
  to_dict r1 = to_dict r2 ↔ r1 = r2.
Proof.
  split; [|now intros ->].
  destruct r1 as [n1 u1 h1 rt1 s1 c1 e1 l1], r2 as [n2 u2 h2 rt2 s2 c2 e2 l2].
  unfold to_dict. simpl. intros [= -> -> Hh Hrt -> Hc He ->].
  apply HealthStatus_value_inj in Hh as ->.
  assert (rt1 = rt2) as -> by (destruct rt1, rt2; simpl in Hrt; congruence).
  assert (c1 = c2) as -> by (destruct c1, c2; simpl in Hc; congruence).
  assert (e1 = e2) as -> by (destruct e1, e2; simpl in He; congruence).
  reflexivity.
Qed.




Lemma find_server_None (servers : list ServerConfig.t) (server_name : string) :
  find_server servers server_name = None ↔
  ∀ s, s ∈ servers → ServerConfig.name s ≠ server_name.
Proof.
  unfold find_server. induction servers as [|s servers IH]; simpl.
  - split; [intros _ s Hs; inversion Hs|reflexivity].
  - destruct (bool_decide (ServerConfig.name s = server_name)) eqn:Hd.
    + apply bool_decide_eq_true in Hd. split; [discriminate|].
      intros Hno. destruct (Hno s); [apply list_elem_of_here|assumption].
    + apply bool_decide_eq_false in Hd. rewrite IH. split.
      * intros Hno s' [->|Hs']%elem_of_cons; auto.
      * intros Hno s' Hs'. apply Hno. now apply list_elem_of_further.
Qed.

Lemma find_server_first (before after : list ServerConfig.t) (server : ServerConfig.t) :
  (∀ s, s ∈ before → ServerConfig.name s ≠ ServerConfig.name server) →
  find_server (before ++ server :: after) (ServerConfig.name server) = Some server.
Proof.
  unfold find_server. induction before as [|s before IH]; intros Hno; simpl.
  - now rewrite bool_decide_eq_true_2.
  - rewrite bool_decide_eq_false_2 by (apply Hno, list_elem_of_here).
    apply IH. intros s' Hs'. apply Hno. now apply list_elem_of_further.
Qed.

(** X20. The route [/servers/<name>/health] answers 404 exactly when no
    server of the list has that name; it then sends no request and leaves
    the checker, cache included, as it was. *)
Theorem unknown_server_not_found (servers : list ServerConfig.t)
    (checker : HealthChecker.t) (server_name : string) (io : ProbeIO) :
  ((individual_server_health servers checker server_name io).1.1.2 = 404%Z ↔
   ∀ s, s ∈ servers → ServerConfig.name s ≠ server_name) ∧
  ((∀ s, s ∈ servers → ServerConfig.name s ≠ server_name) →
   individual_server_health servers checker server_name io =
   (JObject [("error", JString "Server not found")], 404%Z, checker, [])).
Proof.
  rewrite <- find_server_None. unfold individual_server_health.
  destruct (find_server servers server_name) as [server|].
  - destruct (HealthChecker.check_server checker server io) as [[[h|e] c] snt];
      simpl; split; try discriminate; split; discriminate.
  - simpl. split; [split|]; reflexivity.
Qed.

(** X21. For a name that servers of the list have, the route checks the
    first of them and no other: it answers 200 with the dictionary of the
    record [check_server] returns for that server, or 500 when that check
    raises, and the checker and the requests are those of that check. *)
Theorem individual_server_health_checks_first (before after : list ServerConfig.t)
    (server : ServerConfig.t) (checker : HealthChecker.t) (io : ProbeIO) :
  (∀ s, s ∈ before → ServerConfig.name s ≠ ServerConfig.name server) →
  individual_server_health (before ++ server :: after) checker
    (ServerConfig.name server) io =
  match HealthChecker.check_server checker server io with
  | (Ok health, checker', sent) => (to_dict health, 200%Z, checker', sent)
  | (Raise e, checker', sent) => (internal_server_error, 500%Z, checker', sent)
  end.
Proof.
  intros Hfirst. unfold individual_server_health.
  now rewrite find_server_first.
Qed.

(** Two servers are named ["server1"]: the first one, with the empty URL,
    is the one checked. *)
Lemma individual_server_health_checks_first_witness :
  individual_server_health broken_servers health_checker "server1"
    (failed_io 1000 "Invalid URL") =
  match HealthChecker.check_server health_checker (ServerConfig.make "server1" "")
          (failed_io 1000 "Invalid URL") with
  | (Ok health, checker', sent) => (to_dict health, 200%Z, checker', sent)
  | (Raise e, checker', sent) => (internal_server_error, 500%Z, checker', sent)
  end.
Proof.
  apply (individual_server_health_checks_first []
           [ServerConfig.make "server1" "https://go.aimachengine.com"]
           (ServerConfig.make "server1" "") health_checker
           (failed_io 1000 "Invalid URL")).
  intros s Hs. inversion Hs.
Defined.



(** ** The first version, continued *)

Lemma app_snapshot_lookup (servers : list ServerConfig.t) (ios : list ProbeIO)
    (i : nat) (server : ServerConfig.t) (io : ProbeIO) :
  servers !! i = Some server → ios !! i = Some io →
  App.get_all_server_health servers ios !! i = Some (App.check_server_health server io).
Proof.
  revert ios i. induction servers as [|s servers IH]; intros [|io0 ios] [|i];
    simpl; try discriminate.
  - now intros [= ->] [= ->].
  - apply IH.
Qed.

Lemma app_snapshot_length (servers : list ServerConfig.t) (ios : list ProbeIO) :
  length ios = length servers →
  length (App.get_all_server_health servers ios) = length servers.
Proof.
  revert ios. induction servers as [|s servers IH]; intros [|io ios]; simpl;
    try discriminate; auto.
Qed.

Lemma app_check_describes (server : ServerConfig.t) (io : ProbeIO) :
  App.name (App.check_server_health server io) = ServerConfig.name server ∧
  App.url (App.check_server_health server io) = ServerConfig.url server.
Proof.
  unfold App.check_server_health, session_get, response_json, get_status_item,
    get_score_item.
  destruct (outcome io) as [msg|code body]; simpl; [auto|].
  destruct (decide (code = 200%Z)); simpl; [|auto].
  destruct body as [msg|[st|] [sc|]|]; simpl; auto.
Qed.

(** X23. In the first version, which has no cache, the list of health
    dictionaries has one entry per server, in the order of the server list,
    the entry at position [i] carrying the name and the URL of the server at
    position [i], whatever the upstreams answer. *)
Theorem app_snapshot_in_order (servers : list ServerConfig.t) (ios : list ProbeIO) :
  length ios = length servers →
  length (App.get_all_server_health servers ios) = length servers ∧
  ∀ i server, servers !! i = Some server →
    ∃ r, App.get_all_server_health servers ios !! i = Some r ∧
         App.name r = ServerConfig.name server ∧
         App.url r = ServerConfig.url server.
Proof.
  intros Hlen. split; [now apply app_snapshot_length|].
  intros i server Hs.
  destruct (lookup_lt_is_Some_2 ios i) as [io Hio].
  { rewrite Hlen. eapply lookup_lt_Some, Hs. }
  exists (App.check_server_health server io).
  split; [now apply app_snapshot_lookup|]. apply app_check_describes.
Qed.

Lemma app_snapshot_in_order_witness :
  length (App.get_all_server_health twin_servers
            [array_io 1000; failed_io 1000 "Read timed out"]) = length twin_servers ∧
  ∀ i server, twin_servers !! i = Some server →
    ∃ r, App.get_all_server_health twin_servers
           [array_io 1000; failed_io 1000 "Read timed out"] !! i = Some r ∧
         App.name r = ServerConfig.name server ∧
         App.url r = ServerConfig.url server.
Proof.
  apply (app_snapshot_in_order twin_servers
           [array_io 1000; failed_io 1000 "Read timed out"]).
  reflexivity.
Defined.

Lemma app_healthy_iff_self_reported_aux (server : ServerConfig.t) (io : ProbeIO) :
  App.health (App.check_server_health server io) = "healthy" ↔
  ∃ score, outcome io = Response 200 (JsonObject (Some "healthy") (Some score)).
Proof.
  unfold App.check_server_health, session_get, response_json, get_status_item,
    get_score_item.
  destruct (outcome io) as [msg|code body]; simpl.
  - split; [discriminate|intros [? [=]]].
  - destruct (decide (code = 200%Z)) as [->|Hne]; simpl.
    + destruct body as [msg|[st|] [sc|]|]; simpl;
        (split; [try discriminate|intros [? [=]]]); subst; eauto.
      intros ->. eauto.
    + split; [discriminate|intros [? [=]]; congruence].
Qed.

(** X24. In the first version a server is a candidate for selection
    exactly when it answers 200 with a JSON object whose status is
    ["healthy"] and that has a score; its score is then the one it reports. *)
Theorem app_healthy_iff_self_reported (server : ServerConfig.t) (io : ProbeIO) :
  (App.health (App.check_server_health server io) = "healthy" ↔
   ∃ score, outcome io = Response 200 (JsonObject (Some "healthy") (Some score))) ∧
  (∀ score, outcome io = Response 200 (JsonObject (Some "healthy") (Some score)) →
            App.score (App.check_server_health server io) = score).
Proof.
  split; [apply app_healthy_iff_self_reported_aux|].
  intros score Hout. unfold App.check_server_health, session_get.
  rewrite Hout. reflexivity.
Qed.



Example app_selects_self_reported_healthy :
  (AppRoutes.upload_endpoint twin_servers
     [mkIO 1000 (Response 200 (JsonObject (Some "degraded") (Some 99))) 20 1001 "t";
      mkIO 1000 (Response 200 (JsonObject (Some "healthy") (Some 10))) 20 1001 "t"]).2
  = 200%Z.
Proof. reflexivity. Qed.
